(** * sq: rendering of SQL fragments

    A shallow embedding of the expression composer of package [sq]
    (expr.go, case.go and the files of [part] and [DebugSQLizer]): every
    [SQLizer] renders to a text, an
    argument slice and an error.  Go values of type [interface{}] become the
    tagged union [value]; a slice keeps the difference between [nil] and an
    empty slice; a map lists its entries in the order [range] yields them. *)

From Stdlib Require Import String Ascii List ZArith Lia Bool.
From Stdlib Require Import Permutation Sorted Mergesort Orders DecimalString.
Import ListNotations.

Set Warnings "-register-all".

Open Scope string_scope.

(** ** Go strings: byte sequences, sliced by integer positions *)

Module GoString.

Definition len (s : string) : Z := Z.of_nat (String.length s).

Fixpoint take (n : nat) (s : string) : string :=
  match n, s with
  | S n', String c s' => String c (take n' s')
  | _, _ => ""
  end.

Fixpoint drop (n : nat) (s : string) : string :=
  match n, s with
  | S n', String _ s' => drop n' s'
  | _, _ => s
  end.

(** [s[:j]], [s[i:]] and [s[i:j]]; every use below is within bounds. *)
Definition slice_to (s : string) (j : Z) : string := take (Z.to_nat j) s.
Definition slice_from (s : string) (i : Z) : string := drop (Z.to_nat i) s.
Definition slice (s : string) (i j : Z) : string :=
  take (Z.to_nat (j - i)) (drop (Z.to_nat i) s).

(** [strings.Index]: position of the first occurrence, [-1] when absent. *)
Fixpoint Index (s substr : string) : Z :=
  if String.prefix substr s then 0%Z
  else match s with
       | "" => (-1)%Z
       | String _ s' =>
           let i := Index s' substr in
           if (i <? 0)%Z then (-1)%Z else (i + 1)%Z
       end.

(** [strings.Join]. *)
Definition Join (elems : list string) (sep : string) : string :=
  String.concat sep elems.

(** [strings.Repeat]. *)
Fixpoint Repeat (s : string) (count : nat) : string :=
  match count with
  | O => ""
  | S n => s ++ Repeat s n
  end.

(** [%d] of a length. *)
Definition itoa (n : nat) : string := NilZero.string_of_uint (Nat.to_uint n).

End GoString.
Import GoString.

(** [sort.Strings]: ascending byte-wise lexicographic order. *)
Module StringOrder <: TotalLeBool.
Definition t := string.
Definition leb := String.leb.
Definition leb_total :
  forall a1 a2, leb a1 a2 = true \/ leb a2 a1 = true := String.leb_total.
End StringOrder.

Module SortStrings := Sort StringOrder.

(** ** Data model *)

(** An [error] keeps the format and the operands it was built from. *)
Inductive error_of (V : Type) : Type :=
| Errorf (format : string) (operands : list V)
| ErrorsNew (text : string).
Arguments Errorf {V} format operands.
Arguments ErrorsNew {V} text.

(** A Go slice: [None] is the nil slice, [Some []] an empty one. *)
Definition slice_of (A : Type) : Type := option (list A).

(** [value] is what an [interface{}] may hold here; [fragment] lists the
    implementations of [SQLizer].
    - [VPtr None] is a typed nil pointer, [VPtr (Some v)] points to [v];
    - [VValuer v e] is a [driver.Valuer] whose [Value()] returns [(v, e)];
    - [VBytes] is [[]byte], which [driver.IsValue] accepts as a scalar;
    - [VSql f] is any value implementing [SQLizer];
    - [Extern] is a [SQLizer] defined elsewhere (a statement builder, a
      caller's type), given by what [ToSQL] returns and, when it also
      implements [rawSQLizer], what [toSQLRaw] returns. *)
Inductive value : Type :=
| VNil
| VInt (n : Z)
| VStr (s : string)
| VBytes (b : string)
| VList (elems : list value)
| VPtr (target : option value)
| VValuer (v : value) (e : option (error_of value))
| VSql (f : fragment)
with fragment : Type :=
| Expr (sql : string) (args : slice_of value)
| ConcatExpr (parts : list value)
| AliasExpr (expr : fragment) (alias : string)
| Eq (m : list (string * value))
| NotEq (m : list (string * value))
| Like (m : list (string * value))
| NotLike (m : list (string * value))
| ILike (m : list (string * value))
| NotILike (m : list (string * value))
| Lt (m : list (string * value))
| LtOrEq (m : list (string * value))
| Gt (m : list (string * value))
| GtOrEq (m : list (string * value))
| And (c : list fragment)
| Or (c : list fragment)
| Part (pred : value) (args : slice_of value)
| CaseData (What : option fragment) (WhenParts : list whenPart)
           (Else : option fragment)
| Extern (toSQL : string * slice_of value * option (error_of value))
         (toSQLRaw : option (string * slice_of value * option (error_of value)))
with whenPart : Type :=
| WhenPart (when then_ : fragment).

Definition error : Type := error_of value.
Definition args_t : Type := slice_of value.

(** What [ToSQL] returns: [(sql, args, err)]. *)
Definition result : Type := string * args_t * option error.

(** [map[string]interface{}], entries in the order [range] yields them;
    keys are pairwise distinct. *)
Definition gomap : Type := list (string * value).

Definition sql_of (r : result) : string := fst (fst r).
Definition args_of (r : result) : args_t := snd (fst r).
Definition err_of (r : result) : option error := snd r.

(** ** Slices *)

Definition elems {A} (s : slice_of A) : list A :=
  match s with
  | None => []
  | Some l => l
  end.

(** [append(s, xs...)]: with nothing to add the slice is returned as it is. *)
Definition append {A} (s : slice_of A) (xs : list A) : slice_of A :=
  match xs with
  | [] => s
  | _ => Some (elems s ++ xs)%list
  end.

(** ** Maps *)

(** [m[key]], the zero value [nil] when the key is absent. *)
Fixpoint lookup (m : gomap) (key : string) : value :=
  match m with
  | [] => VNil
  | (k, v) :: m' => if String.eqb k key then v else lookup m' key
  end.

(** getSortedKeys: collect the keys by [range], then [sort.Strings]. *)
Definition getSortedKeys (exp : gomap) : list string :=
  let sortedKeys := map fst exp in
  SortStrings.sort sortedKeys.

(** ** Constants and small helpers of expr.go *)

Definition sqlTrue : string := "(1=1)".
Definition sqlFalse : string := "(1=0)".

(** Modelled from the spec: [Placeholders] (placeholder.go is not among the
    sources); one marker per element, separated by commas, as the tests of
    expr.go show for [IN (?,?,?)]. *)
Definition Placeholders (count : nat) : string :=
  match count with
  | O => ""
  | S _ => slice_from (Repeat ",?" count) 1
  end.

(** The list a value is by reflection: slices and arrays, and the named
    slice types [And], [Or] and [concatExpr]; [None] for everything else. *)
Definition list_elems (val : value) : option (list value) :=
  match val with
  | VList l => Some l
  | VSql (And c) => Some (map VSql c)
  | VSql (Or c) => Some (map VSql c)
  | VSql (ConcatExpr parts) => Some parts
  | _ => None
  end.

(** isListType: not a [driver.Value], and of kind array or slice. *)
Definition isListType (val : value) : bool :=
  match list_elems val with
  | Some _ => true
  | None => false
  end.

Definition is_nil (val : value) : bool :=
  match val with
  | VNil => true
  | _ => false
  end.

(** The [driver.Valuer] case of the type switch: [val, err = v.Value()]. *)
Definition valuer_value (val : value) : value * option error :=
  match val with
  | VValuer v e => (v, e)
  | _ => (val, None)
  end.

(** The [reflect.Ptr] case of [Eq.toSQL]. *)
Definition deref (val : value) : value :=
  match val with
  | VPtr None => VNil
  | VPtr (Some v) => v
  | _ => val
  end.

(** ** The methods of each fragment type

    [ToSQL] stands for the method call [s.ToSQL()] on a nested fragment; the
    recursion is tied below. *)

Section Methods.

Variable ToSQL : fragment -> result.

(** nestedToSQL. *)
Definition nestedToSQL (s : fragment) : result :=
  match s with
  | Extern _ (Some raw) => raw
  | _ => ToSQL s
  end.

(** The type assertion [arg.(SQLizer)]: the fragment's [ToSQL] method, held
    as what it returns, when [arg] is a [SQLizer]. *)
Definition as_SQLizer (arg : value) : option result :=
  match arg with
  | VSql s => Some (ToSQL s)
  | _ => None
  end.

(** The loop of expr.ToSQL.  [ap] pairs each pending argument with its
    [SQLizer] assertion; [sp] shrinks at every turn, so [fuel] beyond its
    length is never used up. *)
Fixpoint expr_loop (fuel : nat) (buf : string) (args : args_t)
    (ap : list (value * option result)) (sp : string) (err : option error)
    : result :=
  let done := (buf ++ sp, append args (map fst ap), err) in
  match fuel with
  | O => done
  | S fuel' =>
      match err, ap with
      | None, (ap0, as_) :: ap' =>
          if (0 <? len sp)%Z then
            let i := Index sp "?" in
            if (i <? 0)%Z then
              (* no more placeholders *)
              done
            else if (len sp >? i + 1)%Z
                    && (slice sp (i + 1)%Z (i + 2)%Z =? "?")
            then
              (* escaped "??"; append it and step past *)
              expr_loop fuel' (buf ++ slice_to sp (i + 2)%Z) args ap
                        (slice_from sp (i + 2)%Z) err
            else
              match as_ with
              | Some (isql, iargs, err) =>
                  (* sqlizer argument; expand it and append the result *)
                  expr_loop fuel' (buf ++ slice_to sp i ++ isql)
                            (append args (elems iargs)) ap'
                            (slice_from sp (i + 1)%Z) err
              | None =>
                  (* normal argument; append it and the placeholder *)
                  expr_loop fuel' (buf ++ slice_to sp (i + 1)%Z)
                            (append args [ap0]) ap'
                            (slice_from sp (i + 1)%Z) err
              end
          else done
      | _, _ => done
      end
  end.

(** The arguments of an expression, each with its [SQLizer] assertion. *)
Definition assert_SQLizers (args : args_t) : list (value * option result) :=
  match args with
  | None => []
  | Some l => map (fun arg => (arg, as_SQLizer arg)) l
  end.

Definition expr_ToSQL (sql : string) (args : args_t) : result :=
  let ap := assert_SQLizers args in
  let simple :=
    fold_left (fun (simple : bool) (arg : value * option result) =>
                 match snd arg with
                 | Some _ => false
                 | None => simple
                 end) ap true in
  if simple then (sql, args, None)
  else expr_loop (S (String.length sql)) "" None ap sql None.

(** concatExpr.ToSQL. *)
Fixpoint concatExpr_loop (ce : list value) (sql : string) (args : args_t)
    : result :=
  match ce with
  | [] => (sql, args, None)
  | part :: ce' =>
      match part with
      | VStr p => concatExpr_loop ce' (sql ++ p) args
      | VSql p =>
          let '(pSQL, pArgs, err) := ToSQL p in
          match err with
          | Some _ => ("", None, err)
          | None => concatExpr_loop ce' (sql ++ pSQL) (append args (elems pArgs))
          end
      | _ => ("", None, Some (Errorf "%#v is not a string or SQLizer" [part]))
      end
  end.

Definition concatExpr_ToSQL (ce : list value) : result :=
  concatExpr_loop ce "" None.

(** aliasExpr.ToSQL. *)
Definition aliasExpr_ToSQL (expr : fragment) (alias : string) : result :=
  let '(sql, args, err) := ToSQL expr in
  match err with
  | None => ("(" ++ sql ++ ") AS " ++ alias, args, err)
  | Some _ => (sql, args, err)
  end.

(** conj.join. *)
Fixpoint conj_loop (c : list fragment) (sep : string)
    (sqlParts : list string) (args : args_t) : result :=
  match c with
  | [] =>
      let sql :=
        if (0 <? length sqlParts)%nat
        then "(" ++ Join sqlParts sep ++ ")" else "" in
      (sql, args, None)
  | sqlizer :: c' =>
      let '(partSQL, partArgs, err) := nestedToSQL sqlizer in
      match err with
      | Some _ => ("", None, err)
      | None =>
          if negb (partSQL =? "")
          then conj_loop c' sep (sqlParts ++ [partSQL])%list
                         (append args (elems partArgs))
          else conj_loop c' sep sqlParts args
      end
  end.

Definition conj_join (c : list fragment) (sep defaultExpr : string) : result :=
  if (length c =? 0)%nat then (defaultExpr, Some [], None)
  else conj_loop c sep [] None.

(** part.ToSQL. *)
Definition part_ToSQL (pred : value) (args : args_t) : result :=
  match pred with
  | VNil => ("", None, None)
  | VSql pred => nestedToSQL pred
  | VStr pred => (pred, args, None)
  | _ => ("", None, Some (Errorf "expected string or SQLizer, not %T" [pred]))
  end.

(** sqlizerBuffer (case.go): a buffer, the arguments and the first error. *)
Record sqlizerBuffer : Type := mkBuffer {
  Buffer : string;
  buf_args : args_t;
  buf_err : option error
}.

Definition WriteString (b : sqlizerBuffer) (s : string) : sqlizerBuffer :=
  mkBuffer (Buffer b ++ s) (buf_args b) (buf_err b).

Definition WriteByte (b : sqlizerBuffer) (c : ascii) : sqlizerBuffer :=
  mkBuffer (Buffer b ++ String c "") (buf_args b) (buf_err b).

Definition WriteSQL (b : sqlizerBuffer) (item : fragment) : sqlizerBuffer :=
  match buf_err b with
  | Some _ => b
  | None =>
      let '(str, args, err) := nestedToSQL item in
      let b := mkBuffer (Buffer b) (buf_args b) err in
      match err with
      | Some _ => b
      | None =>
          let b := WriteString b str in
          let b := WriteByte b " " in
          mkBuffer (Buffer b) (append (buf_args b) (elems args)) (buf_err b)
      end
  end.

Definition sqlizerBuffer_ToSQL (b : sqlizerBuffer) : result :=
  (Buffer b, buf_args b, buf_err b).

(** caseData.ToSQL (case.go). *)
Definition caseData_ToSQL (What : option fragment) (WhenParts : list whenPart)
    (Else : option fragment) : result :=
  if (length WhenParts =? 0)%nat then
    ("", None,
     Some (ErrorsNew "case expression must contain at lease one WHEN clause"))
  else
    let sql := mkBuffer "" None None in
    let sql := WriteString sql "CASE " in
    let sql := match What with
               | Some What => WriteSQL sql What
               | None => sql
               end in
    let sql :=
      fold_left (fun sql p =>
                   let 'WhenPart when then_ := p in
                   let sql := WriteString sql "WHEN " in
                   let sql := WriteSQL sql when in
                   let sql := WriteString sql "THEN " in
                   WriteSQL sql then_) WhenParts sql in
    let sql := match Else with
               | Some Else => WriteSQL (WriteString sql "ELSE ") Else
               | None => sql
               end in
    let sql := WriteString sql "END" in
    sqlizerBuffer_ToSQL sql.

End Methods.

(** ** Map-sugar predicates (expr.go) *)

(** The elements reflection finds in a list value, in index order. *)
Definition reflect_elems (val : value) : list value :=
  match list_elems val with
  | Some l => l
  | None => []
  end.

(** The body of the loop of Eq.toSQL once [val] is unwrapped: the clause
    for [key] and the arguments after it. *)
Definition Eq_expr (equalOpr inOpr nullOpr inEmptyExpr : string)
    (key : string) (val : value) (args : args_t) : string * args_t :=
  if is_nil val then
    (key ++ " " ++ nullOpr ++ " NULL", args)
  else if isListType val then
    let valVal := reflect_elems val in
    if (length valVal =? 0)%nat then
      (inEmptyExpr, match args with
                    | None => Some []
                    | Some _ => args
                    end)
    else
      let args := fold_left (fun args x => append args [x]) valVal args in
      (key ++ " " ++ inOpr ++ " (" ++ Placeholders (length valVal) ++ ")", args)
  else
    (key ++ " " ++ equalOpr ++ " ?", append args [val]).

Fixpoint Eq_loop (eq : gomap) (equalOpr inOpr nullOpr inEmptyExpr : string)
    (sortedKeys : list string) (exprs : list string) (args : args_t)
    : result :=
  match sortedKeys with
  | [] => (Join exprs " AND ", args, None)
  | key :: sortedKeys' =>
      let val := lookup eq key in
      let '(val, err) := valuer_value val in
      match err with
      | Some _ => ("", args, err)
      | None =>
          let val := deref val in
          let '(expr, args) :=
            Eq_expr equalOpr inOpr nullOpr inEmptyExpr key val args in
          Eq_loop eq equalOpr inOpr nullOpr inEmptyExpr sortedKeys'
                  (exprs ++ [expr])%list args
      end
  end.

Definition Eq_toSQL (eq : gomap) (useNotOpr : bool) : result :=
  if (length eq =? 0)%nat then
    (* Empty SQL{} evaluates to true. *)
    (sqlTrue, None, None)
  else
    let equalOpr := if useNotOpr then "<>" else "=" in
    let inOpr := if useNotOpr then "NOT IN" else "IN" in
    let nullOpr := if useNotOpr then "IS NOT" else "IS" in
    let inEmptyExpr := if useNotOpr then sqlTrue else sqlFalse in
    let sortedKeys := getSortedKeys eq in
    Eq_loop eq equalOpr inOpr nullOpr inEmptyExpr sortedKeys [] None.

Definition errLikeNull : error :=
  Errorf "cannot use null with like operators" [].
Definition errLikeList : error :=
  Errorf "cannot use array or slice with like operators" [].

(** Like.toSQL ranges over the map itself. *)
Fixpoint Like_loop (lk : gomap) (opr : string) (exprs : list string)
    (args : args_t) : result :=
  match lk with
  | [] => (Join exprs " AND ", args, None)
  | (key, val) :: lk' =>
      let '(val, err) := valuer_value val in
      match err with
      | Some _ => ("", args, err)
      | None =>
          if is_nil val then ("", args, Some errLikeNull)
          else if isListType val then ("", args, Some errLikeList)
          else
            let expr := key ++ " " ++ opr ++ " ?" in
            Like_loop lk' opr (exprs ++ [expr])%list (append args [val])
      end
  end.

Definition Like_toSQL (lk : gomap) (opr : string) : result :=
  Like_loop lk opr [] None.

Definition errLtNull : error :=
  Errorf "cannot use null with less than or greater than operators" [].
Definition errLtList : error :=
  Errorf "cannot use array or slice with less than or greater than operators" [].

Fixpoint Lt_loop (lt : gomap) (opr : string) (sortedKeys : list string)
    (exprs : list string) (args : args_t) : result :=
  match sortedKeys with
  | [] => (Join exprs " AND ", args, None)
  | key :: sortedKeys' =>
      let val := lookup lt key in
      let '(val, err) := valuer_value val in
      match err with
      | Some _ => ("", args, err)
      | None =>
          if is_nil val then ("", args, Some errLtNull)
          else if isListType val then ("", args, Some errLtList)
          else
            let expr := key ++ " " ++ opr ++ " ?" in
            Lt_loop lt opr sortedKeys' (exprs ++ [expr])%list
                    (append args [val])
      end
  end.

Definition Lt_toSQL (lt : gomap) (opposite orEq : bool) : result :=
  let opr := "<" in
  let opr := if opposite then ">" else opr in
  let opr := if orEq then opr ++ "=" else opr in
  let sortedKeys := getSortedKeys lt in
  Lt_loop lt opr sortedKeys [] None.

(** ** ToSQL, by the dynamic type of the fragment *)

Fixpoint ToSQL (s : fragment) : result :=
  match s with
  | Expr sql args => expr_ToSQL ToSQL sql args
  | ConcatExpr ce => concatExpr_ToSQL ToSQL ce
  | AliasExpr expr alias => aliasExpr_ToSQL ToSQL expr alias
  | Eq eq => Eq_toSQL eq false
  | NotEq neq => Eq_toSQL neq true
  | Like lk => Like_toSQL lk "LIKE"
  | NotLike nlk => Like_toSQL nlk "NOT LIKE"
  | ILike ilk => Like_toSQL ilk "ILIKE"
  | NotILike nilk => Like_toSQL nilk "NOT ILIKE"
  | Lt lt => Lt_toSQL lt false false
  | LtOrEq ltOrEq => Lt_toSQL ltOrEq false true
  | Gt gt => Lt_toSQL gt true false
  | GtOrEq gtOrEq => Lt_toSQL gtOrEq true true
  | And a => conj_join ToSQL a " AND " sqlTrue
  | Or o => conj_join ToSQL o " OR " sqlFalse
  | Part pred args => part_ToSQL ToSQL pred args
  | CaseData What WhenParts Else => caseData_ToSQL ToSQL What WhenParts Else
  | Extern toSQL _ => toSQL
  end.

(** ** DebugSQLizer

    The verbs of package [fmt] are taken as given: [fmt_v] is [%v] of an
    argument, [fmt_sharp_v] is [%#v] of a string and [Error] is [%s] of an
    error. *)

Section Debug.

Variable fmt_v : value -> string.
Variable fmt_sharp_v : string -> string.
Variable Error : error -> string.

Definition too_many_placeholders (sql : string) (args : args_t) : string :=
  "[DebugSQLizer error: too many placeholders in " ++ fmt_sharp_v sql
    ++ " for " ++ itoa (length (elems args)) ++ " args]".

Definition not_enough_placeholders (sql : string) (args : args_t) : string :=
  "[DebugSQLizer error: not enough placeholders in " ++ fmt_sharp_v sql
    ++ " for " ++ itoa (length (elems args)) ++ " args]".

(** The loop of DebugSQLizer: [inl] is a [return] from inside the loop,
    [inr (buf, sql, i)] the state the loop is left with. *)
Fixpoint debug_loop (fuel : nat) (placeholder : string) (args : args_t)
    (buf sql : string) (i : nat) : string + (string * string * nat) :=
  match fuel with
  | O => inr (buf, sql, i)
  | S fuel' =>
      let p := Index sql placeholder in
      if (p =? -1)%Z then inr (buf, sql, i)
      else if (len (slice_from sql p) >? 1)%Z
              && (slice sql p (p + 2)%Z =? "??")
      then
        (* escape ?? => ? *)
        let buf := buf ++ slice_to sql p in
        let buf := buf ++ "?" in
        if (len (slice_from sql p) =? 1)%Z then inr (buf, sql, i)
        else debug_loop fuel' placeholder args buf (slice_from sql (p + 2)%Z) i
      else
        if (length (elems args) <? i + 1)%nat then
          inl (too_many_placeholders sql args)
        else
          let buf := buf ++ slice_to sql p in
          let buf := buf ++ "'" ++ fmt_v (nth i (elems args) VNil) ++ "'" in
          (* advance our sql string "cursor" beyond the arg we placed *)
          debug_loop fuel' placeholder args buf (slice_from sql (p + 1)%Z)
                     (i + 1)
  end.

(** No type among the sources implements [placeholderDebugger], so the
    assertion fails and the marker is ["?"]. *)
Definition DebugSQLizer (s : fragment) : string :=
  let '(sql, args, err) := ToSQL s in
  match err with
  | Some err => "[ToSQL error: " ++ Error err ++ "]"
  | None =>
      let placeholder := "?" in
      match debug_loop (S (String.length sql)) placeholder args "" sql 0 with
      | inl diagnostic => diagnostic
      | inr (buf, sql, i) =>
          if (i <? length (elems args))%nat then
            not_enough_placeholders sql args
          else
            (* "append" any remaning sql that won't need interpolating *)
            buf ++ sql
      end
  end.

End Debug.

(** ** Markers of a text

    The non-escaped markers, counted from the left: a doubled marker is an
    escape and counts for none. *)
Fixpoint count_markers (s : string) : nat :=
  match s with
  | "" => 0
  | String c s' =>
      if Ascii.eqb c "?" then
        match s' with
        | String c' s'' =>
            if Ascii.eqb c' "?" then count_markers s''
            else S (count_markers s')
        | "" => 1
        end
      else count_markers s'
  end.

(** A text without any marker character. *)
Fixpoint no_marker (s : string) : bool :=
  match s with
  | "" => true
  | String c s' => negb (Ascii.eqb c "?") && no_marker s'
  end.

(** Whether the scan of a text ends on a marker character it has not
    paired: what follows then decides between a marker and an escape. *)
Fixpoint marker_pending (s : string) : bool :=
  match s with
  | "" => false
  | String c s' =>
      if Ascii.eqb c "?" then
        match s' with
        | String c' s'' =>
            if Ascii.eqb c' "?" then marker_pending s''
            else marker_pending s'
        | "" => true
        end
      else marker_pending s'
  end.

(** Whether a text begins with the marker character. *)
Definition starts_with_marker (s : string) : bool :=
  match s with
  | String c _ => Ascii.eqb c "?"
  | "" => false
  end.

(** The pieces a case expression renders, in the order it renders them. *)
Definition case_children (What : option fragment) (WhenParts : list whenPart)
    (Else : option fragment) : list fragment :=
  (match What with Some w => [w] | None => [] end
   ++ flat_map (fun p => let 'WhenPart when then_ := p in [when; then_])
               WhenParts
   ++ match Else with Some e => [e] | None => [] end)%list.

(** The arguments an expression emits for the arguments it matched to
    markers: a fragment gives the arguments of its render, a plain value
    itself. *)
Definition emitted (arg : value) : list value :=
  match arg with
  | VSql s => elems (args_of (ToSQL s))
  | _ => [arg]
  end.

(** The first error a sequence of nested renders meets, after [start]. *)
Definition first_err (start : option error) (items : list fragment)
    : option error :=
  fold_left (fun acc item =>
               match acc with
               | Some e => Some e
               | None => err_of (nestedToSQL ToSQL item)
               end) items start.

(** An argument of an expression with its [SQLizer] assertion. *)
Definition asserted (arg : value) : value * option result :=
  (arg, as_SQLizer ToSQL arg).

(** A value no comparison or pattern-match map accepts: null, or a list. *)
Definition null_or_list (val : value) : bool :=
  is_nil val || isListType val.



(** ** appendToSQL

    The writer is the [bytes.Buffer] of the statement under construction,
    held as its content; writing to it never fails.  The result is that
    content, the arguments and the error. *)
Fixpoint appendToSQL_from (i : nat) (parts : list fragment) (w : string)
    (sep : string) (args : args_t) : string * args_t * option error :=
  match parts with
  | [] => (w, args, None)
  | p :: parts' =>
      let '(partSQL, partArgs, err) := nestedToSQL ToSQL p in
      match err with
      | Some _ => (w, None, err)
      | None =>
          if (String.length partSQL =? 0)%nat then
            appendToSQL_from (S i) parts' w sep args
          else
            let w := if (0 <? i)%nat then w ++ sep else w in
            let w := w ++ partSQL in
            appendToSQL_from (S i) parts' w sep (append args (elems partArgs))
      end
  end.

Definition appendToSQL (parts : list fragment) (w : string) (sep : string)
    (args : args_t) : string * args_t * option error :=
  appendToSQL_from 0 parts w sep args.

(** ** UPDATE statements (update.go)

    [PlaceholderFormat] is an interface of one method used here,
    [ReplacePlaceholders]; the field holds that method.  Whether a fragment
    is a [SelectBuilder] is asked of [isSelectBuilder]: neither type is
    among the sources. *)

Record setClause : Type := mkSetClause {
  column : string;
  value_ : value
}.

Record updateData : Type := mkUpdateData {
  PlaceholderFormat : string -> string * option error;
  Prefixes : list fragment;
  Table : string;
  SetClauses : list setClause;
  WhereParts : list fragment;
  OrderBys : list string;
  Limit : string;
  Offset : string;
  Suffixes : list fragment
}.

Definition errNoTable : error :=
  Errorf "update statements must specify a table" [].
Definition errNoSetClause : error :=
  Errorf "update statements must have at least one Set clause" [].

(** After a call that may fail: [if err != nil { return }], the named
    results being [sqlStr], still empty, [args] and [err]. *)
Definition or_return (r : string * args_t * option error)
    (k : string -> args_t -> result) : result :=
  let '(sql, args, err) := r in
  match err with
  | Some _ => ("", args, err)
  | None => k sql args
  end.

Section Update.

Variable isSelectBuilder : fragment -> bool.

(** The loop over the SET clauses: the clause texts and the arguments, or
    the error of the first value that fails to render. *)
Fixpoint setSQLs_loop (clauses : list setClause) (setSQLs : list string)
    (args : args_t) : list string * args_t + error :=
  match clauses with
  | [] => inl (setSQLs, args)
  | setClause :: clauses' =>
      match value_ setClause with
      | VSql vs =>
          let '(vsql, vargs, err) := ToSQL vs in
          match err with
          | Some err => inr err
          | None =>
              let valSQL :=
                if isSelectBuilder vs then "(" ++ vsql ++ ")" else vsql in
              let setSQL := column setClause ++ " = " ++ valSQL in
              setSQLs_loop clauses' (setSQLs ++ [setSQL])%list
                           (append args (elems vargs))
          end
      | v =>
          let valSQL := "?" in
          let setSQL := column setClause ++ " = " ++ valSQL in
          setSQLs_loop clauses' (setSQLs ++ [setSQL])%list (append args [v])
      end
  end.

(** updateData.ToSQL. *)
Definition updateData_ToSQL (d : updateData) : result :=
  if (String.length (Table d) =? 0)%nat then ("", None, Some errNoTable)
  else if (length (SetClauses d) =? 0)%nat then
    ("", None, Some errNoSetClause)
  else
    let sql := "" in
    let args : args_t := None in
    (if (0 <? length (Prefixes d))%nat
     then fun k => or_return (appendToSQL (Prefixes d) sql " " args)
                             (fun sql args => k (sql ++ " ") args)
     else fun k => k sql args)
      (fun sql args =>
         let sql := sql ++ "UPDATE " in
         let sql := sql ++ Table d in
         let sql := sql ++ " SET " in
         match setSQLs_loop (SetClauses d) [] args with
         | inr err => ("", None, Some err)
         | inl (setSQLs, args) =>
             let sql := sql ++ Join setSQLs ", " in
             (if (0 <? length (WhereParts d))%nat
              then or_return (appendToSQL (WhereParts d) (sql ++ " WHERE ")
                                          " AND " args)
              else fun k => k sql args)
               (fun sql args =>
                  let sql :=
                    if (0 <? length (OrderBys d))%nat
                    then (sql ++ " ORDER BY ") ++ Join (OrderBys d) ", "
                    else sql in
                  let sql :=
                    if (0 <? String.length (Limit d))%nat
                    then (sql ++ " LIMIT ") ++ Limit d else sql in
                  let sql :=
                    if (0 <? String.length (Offset d))%nat
                    then (sql ++ " OFFSET ") ++ Offset d else sql in
                  (if (0 <? length (Suffixes d))%nat
                   then or_return (appendToSQL (Suffixes d) (sql ++ " ") " "
                                               args)
                   else fun k => k sql args)
                    (fun sql args =>
                       let '(sqlStr, err) := PlaceholderFormat d sql in
                       (sqlStr, args, err)))
         end).

End Update.

(** The builder is held as the [updateData] it wraps; [builder.Append]
    adds at the end of the list. *)
Definition Set_ (b : updateData) (column : string) (value : value)
    : updateData :=
  mkUpdateData (PlaceholderFormat b) (Prefixes b) (Table b)
               (SetClauses b ++ [mkSetClause column value])%list
               (WhereParts b) (OrderBys b) (Limit b) (Offset b) (Suffixes b).

(** UpdateBuilder.SetMap: the keys, sorted, each set to its value. *)
Definition SetMap (b : updateData) (clauses : gomap) : updateData :=
  let keys := SortStrings.sort (map fst clauses) in
  fold_left (fun b key => let val := lookup clauses key in Set_ b key val)
            keys b.

(** ** What the properties speak of *)

(** A fragment argument renders without error into a text with as many
    markers as it binds arguments; any other argument is one value for one
    marker. *)
Definition aligned (arg : value) : Prop :=
  match arg with
  | VSql s =>
      err_of (ToSQL s) = None
      /\ count_markers (sql_of (ToSQL s)) = length (elems (args_of (ToSQL s)))
  | _ => True
  end.

(** The text the debug renderer is after, character by character: an
    escaped pair becomes one marker character, a marker the next argument
    between quotes. *)
Fixpoint interpolate (fmt_v : value -> string) (sql : string)
    (args : list value) : string :=
  match sql with
  | "" => ""
  | String c s' =>
      if Ascii.eqb c "?" then
        match s' with
        | String c' s'' =>
            if Ascii.eqb c' "?" then String "?" (interpolate fmt_v s'' args)
            else "'" ++ fmt_v (hd VNil args) ++ "'"
                     ++ interpolate fmt_v s' (tl args)
        | "" => "'" ++ fmt_v (hd VNil args) ++ "'"
        end
      else String c (interpolate fmt_v s' args)
  end.

(** A value an equality map binds as one argument, once unwrapped. *)
Definition Eq_unwrapped (val : value) : value :=
  deref (fst (valuer_value val)).

Definition Eq_scalar (val : value) : Prop :=
  snd (valuer_value val) = None
  /\ is_nil (Eq_unwrapped val) = false
  /\ isListType (Eq_unwrapped val) = false.

(** A value a comparison or pattern-match map binds as one argument. *)
Definition Lt_scalar (val : value) : Prop :=
  snd (valuer_value val) = None
  /\ null_or_list (fst (valuer_value val)) = false.

(** The renders of the children of a conjunction that have a text. *)
Definition with_text (rs : list result) : list result :=
  filter (fun r => negb (sql_of r =? "")) rs.

(** What a nested render contributes: its arguments, and for a piece of a
    case expression its text and the blank after it. *)
Definition nested_args (s : fragment) : list value :=
  elems (args_of (nestedToSQL ToSQL s)).

Definition case_piece (s : fragment) : string :=
  sql_of (nestedToSQL ToSQL s) ++ " ".

(** The right-hand side of a SET clause: a fragment gives its text, between
    parentheses for a [SelectBuilder]; any other value a marker. *)
Definition valSQL_of (isSelectBuilder : fragment -> bool) (v : value)
    : string :=
  match v with
  | VSql vs =>
      if isSelectBuilder vs then "(" ++ sql_of (ToSQL vs) ++ ")"
      else sql_of (ToSQL vs)
  | _ => "?"
  end.

(** The text of a SET clause. *)
Definition setSQL_of (isSelectBuilder : fragment -> bool) (c : setClause)
    : string :=
  column c ++ " = " ++ valSQL_of isSelectBuilder (value_ c).

(** * Properties *)

(** ** Strings *)

Lemma append_nil_r (s : string) : s ++ "" = s.
Proof. induction s; simpl; congruence. Qed.

Lemma append_assoc (a b c : string) : (a ++ b) ++ c = a ++ b ++ c.
Proof. induction a; simpl; congruence. Qed.

Lemma length_append (a b : string) :
  String.length (a ++ b) = String.length a + String.length b.
Proof. induction a; simpl; congruence. Qed.

Lemma take_app_length (pre s : string) (k : nat) :
  take (String.length pre + k) (pre ++ s) = pre ++ take k s.
Proof. induction pre; simpl; [destruct k, s|]; congruence. Qed.

Lemma drop_app_length (pre s : string) (k : nat) :
  drop (String.length pre + k) (pre ++ s) = drop k s.
Proof. induction pre; simpl; [destruct k, s|]; congruence. Qed.

Lemma take_0 (s : string) : take 0 s = "".
Proof. destruct s; reflexivity. Qed.

Lemma drop_0 (s : string) : drop 0 s = s.
Proof. destruct s; reflexivity. Qed.

Lemma length_drop (n : nat) (s : string) :
  String.length (drop n s) = String.length s - n.
Proof.
  revert s; induction n as [|n IH]; intros [|c s]; simpl; auto.
Qed.

Lemma prefix_marker (c : ascii) (s : string) :
  String.prefix "?" (String c s) = Ascii.eqb c "?".
Proof.
  change (String.prefix "?" (String c s))
    with (if ascii_dec "?" c then String.prefix "" s else false).
  destruct (ascii_dec "?" c) as [<-|Hne].
  - destruct s; reflexivity.
  - symmetry. apply Ascii.eqb_neq. congruence.
Qed.

Lemma Index_no_marker (s : string) :
  no_marker s = true -> Index s "?" = (-1)%Z.
Proof.
  induction s as [|c s IH]; intros H.
  - reflexivity.
  - simpl in H. apply andb_prop in H as [Hc Hs].
    unfold Index; fold Index. rewrite prefix_marker.
    apply negb_true_iff in Hc. rewrite Hc, (IH Hs). reflexivity.
Qed.

Lemma Index_first_marker (pre post : string) :
  no_marker pre = true ->
  Index (pre ++ String "?" post) "?" = Z.of_nat (String.length pre).
Proof.
  induction pre as [|c pre IH]; intros H.
  - cbn [String.append]. unfold Index; fold Index.
    rewrite prefix_marker. reflexivity.
  - simpl in H. apply andb_prop in H as [Hc Hs].
    cbn [String.append String.length]. unfold Index; fold Index.
    rewrite prefix_marker. apply negb_true_iff in Hc. rewrite Hc, (IH Hs).
    destruct (Z.ltb_spec (Z.of_nat (String.length pre)) 0); lia.
Qed.

Lemma marker_split (s : string) :
  no_marker s = true \/
  exists pre post, s = pre ++ String "?" post /\ no_marker pre = true.
Proof.
  induction s as [|c s IH].
  - now left.
  - destruct (Ascii.eqb_spec c "?") as [->|Hne].
    + right. exists "", s. split; reflexivity.
    + apply Ascii.eqb_neq in Hne. destruct IH as [H|(pre & post & -> & H)].
      * left. simpl. now rewrite Hne, H.
      * right. exists (String c pre), post. split; [reflexivity|].
        simpl. now rewrite Hne, H.
Qed.

Section Slicing.

Variables pre post : string.
Let s := pre ++ String "?" post.
Let i := Z.of_nat (String.length pre).

Lemma slice_to_marker : slice_to s i = pre.
Proof.
  unfold slice_to, s, i. rewrite Nat2Z.id.
  rewrite <- (Nat.add_0_r (String.length pre)), take_app_length; simpl.
  apply append_nil_r.
Qed.

Lemma slice_to_past_marker : slice_to s (i + 1) = pre ++ "?".
Proof.
  unfold slice_to, s, i.
  replace (Z.to_nat (Z.of_nat (String.length pre) + 1))
    with (String.length pre + 1) by lia.
  rewrite take_app_length. reflexivity.
Qed.

Lemma slice_from_past_marker : slice_from s (i + 1) = post.
Proof.
  unfold slice_from, s, i.
  replace (Z.to_nat (Z.of_nat (String.length pre) + 1))
    with (String.length pre + 1) by lia.
  rewrite drop_app_length. simpl. apply drop_0.
Qed.

Lemma slice_from_marker : slice_from s i = String "?" post.
Proof.
  unfold slice_from, s, i. rewrite Nat2Z.id.
  rewrite <- (Nat.add_0_r (String.length pre)), drop_app_length.
  reflexivity.
Qed.

Lemma slice_to_past_pair : slice_to s (i + 2) = pre ++ String "?" (take 1 post).
Proof.
  unfold slice_to, s, i.
  replace (Z.to_nat (Z.of_nat (String.length pre) + 2))
    with (String.length pre + 2) by lia.
  rewrite take_app_length. reflexivity.
Qed.

Lemma slice_from_past_pair : slice_from s (i + 2) = drop 1 post.
Proof.
  unfold slice_from, s, i.
  replace (Z.to_nat (Z.of_nat (String.length pre) + 2))
    with (String.length pre + 2) by lia.
  rewrite drop_app_length. reflexivity.
Qed.

Lemma slice_after_marker : slice s (i + 1) (i + 2) = take 1 post.
Proof.
  unfold slice. fold (slice_from s (i + 1)). rewrite slice_from_past_marker.
  replace (i + 2 - (i + 1))%Z with 1%Z by lia. reflexivity.
Qed.

Lemma slice_at_marker : slice s i (i + 2) = String "?" (take 1 post).
Proof.
  unfold slice. fold (slice_from s i). rewrite slice_from_marker.
  replace (i + 2 - i)%Z with 2%Z by lia. reflexivity.
Qed.

Lemma len_marker : len s = (i + 1 + len post)%Z.
Proof.
  unfold len, s, i. rewrite length_append. simpl. lia.
Qed.

End Slicing.

Lemma take_1_marker (post : string) :
  (take 1 post =? "?") = starts_with_marker post.
Proof.
  destruct post as [|c post]; [reflexivity|].
  simpl. destruct (Ascii.eqb c "?"); reflexivity.
Qed.

Lemma count_markers_no_marker (pre s : string) :
  no_marker pre = true -> count_markers (pre ++ s) = count_markers s.
Proof.
  induction pre as [|c pre IH]; intros H; [reflexivity|].
  simpl in H. apply andb_prop in H as [Hc Hs]. apply negb_true_iff in Hc.
  cbn [String.append count_markers]. rewrite Hc. auto.
Qed.

Lemma count_markers_none (s : string) :
  no_marker s = true -> count_markers s = 0.
Proof.
  intros H. rewrite <- (append_nil_r s). now rewrite count_markers_no_marker.
Qed.

Lemma count_markers_single (post : string) :
  starts_with_marker post = false ->
  count_markers (String "?" post) = S (count_markers post).
Proof.
  destruct post as [|c post]; simpl; [reflexivity|].
  intros ->. reflexivity.
Qed.

(** ** Slices *)

Lemma append_nil {A} (s : slice_of A) : append s [] = s.
Proof. reflexivity. Qed.

Lemma elems_append {A} (s : slice_of A) (xs : list A) :
  elems (append s xs) = (elems s ++ xs)%list.
Proof. destruct xs; simpl; [now rewrite app_nil_r | reflexivity]. Qed.

Lemma append_append {A} (s : slice_of A) (xs ys : list A) :
  append (append s xs) ys = append s (xs ++ ys).
Proof.
  destruct xs as [|x xs]; [reflexivity|].
  destruct ys as [|y ys]; simpl.
  - now rewrite app_nil_r.
  - now rewrite <- app_assoc.
Qed.


(** ** The loop of expr.ToSQL, turn by turn *)

Lemma expr_loop_err fuel buf args ap sp e :
  expr_loop fuel buf args ap sp (Some e)
  = (buf ++ sp, append args (map fst ap), Some e).
Proof. destruct fuel; reflexivity. Qed.

Lemma expr_loop_nil fuel buf args sp err :
  expr_loop fuel buf args [] sp err = (buf ++ sp, args, err).
Proof. destruct fuel, err; reflexivity. Qed.

Lemma expr_loop_no_marker fuel buf args ap sp err :
  no_marker sp = true ->
  expr_loop fuel buf args ap sp err
  = (buf ++ sp, append args (map fst ap), err).
Proof.
  intros H. destruct fuel; [reflexivity|].
  cbn [expr_loop]. destruct err; [reflexivity|].
  destruct ap as [|[ap0 as_] ap]; [reflexivity|].
  destruct (0 <? len sp)%Z; [|reflexivity].
  rewrite (Index_no_marker _ H). reflexivity.
Qed.

Lemma expr_loop_escape fuel buf args a ap pre post :
  no_marker pre = true ->
  expr_loop (S fuel) buf args (a :: ap)
            (pre ++ String "?" (String "?" post)) None
  = expr_loop fuel (buf ++ pre ++ "??") args (a :: ap) post None.
Proof.
  intros H. destruct a as [ap0 as_]. cbn [expr_loop].
  rewrite (Index_first_marker _ _ H), len_marker.
  rewrite slice_after_marker, slice_to_past_pair, slice_from_past_pair.
  unfold len. cbn [String.length take drop String.eqb].
  destruct (Z.ltb_spec 0 (Z.of_nat (String.length pre) + 1
                          + Z.of_nat (S (String.length post)))); [|lia].
  destruct (Z.ltb_spec (Z.of_nat (String.length pre)) 0); [lia|].
  destruct (Z.gtb_spec (Z.of_nat (String.length pre) + 1
                        + Z.of_nat (S (String.length post)))
                       (Z.of_nat (String.length pre) + 1)); [|lia].
  reflexivity.
Qed.

Lemma expr_loop_marker fuel buf args ap0 as_ ap pre post :
  no_marker pre = true ->
  starts_with_marker post = false ->
  expr_loop (S fuel) buf args ((ap0, as_) :: ap)
            (pre ++ String "?" post) None
  = match as_ with
    | Some (isql, iargs, err) =>
        expr_loop fuel (buf ++ pre ++ isql) (append args (elems iargs))
                  ap post err
    | None =>
        expr_loop fuel (buf ++ pre ++ "?") (append args [ap0]) ap post None
    end.
Proof.
  intros H Hpost. cbn [expr_loop].
  rewrite (Index_first_marker _ _ H), len_marker.
  rewrite slice_after_marker, take_1_marker, Hpost, andb_false_r.
  rewrite slice_to_marker, slice_to_past_marker, slice_from_past_marker.
  unfold len.
  destruct (Z.ltb_spec 0 (Z.of_nat (String.length pre) + 1
                          + Z.of_nat (String.length post))); [|lia].
  destruct (Z.ltb_spec (Z.of_nat (String.length pre)) 0); [lia|].
  destruct as_ as [[[isql iargs] err]|]; reflexivity.
Qed.

(** The text splits at its first marker: none, an escape, or a marker. *)
Lemma text_cases (sp : string) :
  no_marker sp = true \/
  (exists pre post,
      sp = pre ++ String "?" (String "?" post) /\ no_marker pre = true) \/
  (exists pre post,
      sp = pre ++ String "?" post /\ no_marker pre = true
      /\ starts_with_marker post = false).
Proof.
  destruct (marker_split sp) as [H|(pre & post & -> & H)]; [now left|].
  right. destruct post as [|c post].
  - right. now exists pre, "".
  - destruct (Ascii.eqb_spec c "?") as [->|Hne].
    + left. now exists pre, post.
    + right. exists pre, (String c post). repeat split; auto.
      simpl. now apply Ascii.eqb_neq.
Qed.

(** Fuel beyond the length of the remaining text makes no difference. *)
Lemma expr_loop_fuel fuel1 : forall fuel2 buf args ap sp err,
  String.length sp < fuel1 -> String.length sp < fuel2 ->
  expr_loop fuel1 buf args ap sp err = expr_loop fuel2 buf args ap sp err.
Proof.
  induction fuel1 as [|fuel1 IH]; intros fuel2 buf args ap sp err H1 H2;
    [lia|].
  destruct fuel2 as [|fuel2]; [lia|].
  destruct err as [e|]; [now rewrite !expr_loop_err|].
  destruct ap as [|[ap0 as_] ap]; [now rewrite !expr_loop_nil|].
  destruct (text_cases sp)
    as [H|[(pre & post & -> & H)|(pre & post & -> & H & Hpost)]].
  - now rewrite !expr_loop_no_marker.
  - rewrite !expr_loop_escape by assumption.
    rewrite length_append in H1, H2. simpl in H1, H2.
    apply IH; lia.
  - rewrite !expr_loop_marker by assumption.
    rewrite length_append in H1, H2. simpl in H1, H2.
    destruct as_ as [[[isql iargs] err]|]; apply IH; lia.
Qed.

(** What is already in the buffer stays in front of the result. *)
Lemma expr_loop_prefix (b : string) fuel : forall buf args ap sp err,
  expr_loop fuel (b ++ buf) args ap sp err
  = let '(s, a, e) := expr_loop fuel buf args ap sp err in (b ++ s, a, e).
Proof.
  induction fuel as [|fuel IH]; intros buf args ap sp err.
  - simpl. now rewrite append_assoc.
  - cbn [expr_loop].
    destruct err; [now rewrite append_assoc|].
    destruct ap as [|[ap0 as_] ap]; [now rewrite append_assoc|].
    destruct (0 <? len sp)%Z; [|now rewrite append_assoc].
    destruct (Index sp "?" <? 0)%Z; [now rewrite append_assoc|].
    destruct ((len sp >? Index sp "?" + 1)%Z && _).
    + rewrite append_assoc. apply IH.
    + destruct as_ as [[[isql iargs] err]|]; rewrite append_assoc; apply IH.
Qed.

Lemma map_fst_assert (l : list value) (f : value -> option result) :
  map fst (map (fun arg => (arg, f arg)) l) = l.
Proof. induction l; simpl; congruence. Qed.

Lemma simple_no_SQLizer (ap : list (value * option result)) (b : bool) :
  (forall a, In a ap -> snd a = None) ->
  fold_left (fun (simple : bool) (arg : value * option result) =>
               match snd arg with
               | Some _ => false
               | None => simple
               end) ap b = b.
Proof.
  revert b; induction ap as [|a ap IH]; intros b H; [reflexivity|].
  cbn [fold_left]. rewrite (H a (or_introl eq_refl)).
  apply IH. intros a' Ha'. apply H. now right.
Qed.

(** ** Fast path of expressions *)

(** C3: an expression none of whose arguments is a fragment renders to its
    own text and its own argument list, without error. *)
Theorem expr_simple_identity (T : string) (args : args_t) :
  (forall f, ~ In (VSql f) (elems args)) ->
  ToSQL (Expr T args) = (T, args, None).
Proof.
  intros H. cbn [ToSQL]. unfold expr_ToSQL.
  rewrite simple_no_SQLizer; [reflexivity|].
  intros [arg as_] Hin. destruct args as [l|]; [|contradiction].
  cbn [assert_SQLizers] in Hin. apply in_map_iff in Hin as (x & Hx & Hin).
  injection Hx as <- <-. destruct x; try reflexivity.
  exfalso. exact (H _ Hin).
Qed.

Lemma expr_simple_identity_witness :
  ToSQL (Expr "x = ? AND y = ?" (Some [VInt 1; VStr "text"]))
  = ("x = ? AND y = ?", Some [VInt 1; VStr "text"], None).
Proof.
  apply expr_simple_identity.
  intros f [H|[H|[]]]; discriminate H.
Defined.

(** ** Escaped markers *)

Lemma no_marker_app (a b : string) :
  no_marker (a ++ b) = no_marker a && no_marker b.
Proof.
  induction a as [|c a IH]; [reflexivity|].
  cbn [String.append no_marker]. now rewrite IH, andb_assoc.
Qed.

Lemma marker_pending_no_marker (pre s : string) :
  no_marker pre = true -> marker_pending (pre ++ s) = marker_pending s.
Proof.
  induction pre as [|c pre IH]; intros H; [reflexivity|].
  simpl in H. apply andb_prop in H as [Hc Hs]. apply negb_true_iff in Hc.
  cbn [String.append marker_pending]. rewrite Hc. auto.
Qed.

Lemma marker_pending_single (post : string) :
  starts_with_marker post = false ->
  marker_pending (String "?" post) = false ->
  marker_pending post = false /\ forall rest,
      starts_with_marker (post ++ rest) = false.
Proof.
  destruct post as [|c post]; cbn [marker_pending Ascii.eqb Bool.eqb];
    [discriminate|].
  cbn [starts_with_marker]. intros Hc. rewrite Hc. auto.
Qed.

(** Text without a marker in front of the rest goes to the buffer. *)
Lemma expr_loop_plain_prefix (pre : string) buf out ap err :
  no_marker pre = true ->
  forall rest fuel fuel',
    String.length (pre ++ rest) < fuel -> String.length rest < fuel' ->
    expr_loop fuel buf out ap (pre ++ rest) err
    = expr_loop fuel' (buf ++ pre) out ap rest err.
Proof.
  intros H rest fuel fuel' Hf Hf'.
  destruct err as [e|]; [now rewrite !expr_loop_err, !append_assoc|].
  destruct ap as [|[ap0 as_] ap]; [now rewrite !expr_loop_nil, !append_assoc|].
  destruct fuel as [|fuel]; [lia|]. destruct fuel' as [|fuel']; [lia|].
  rewrite length_append in Hf.
  destruct (text_cases rest)
    as [Hr|[(p & q & -> & Hp)|(p & q & -> & Hp & Hq)]].
  - rewrite !expr_loop_no_marker, ?append_assoc; auto.
    now rewrite no_marker_app, H, Hr.
  - rewrite length_append in Hf, Hf'. simpl in Hf, Hf'.
    rewrite <- append_assoc.
    rewrite !expr_loop_escape, ?append_assoc;
      [|assumption|now rewrite no_marker_app, H, Hp].
    apply expr_loop_fuel; lia.
  - rewrite length_append in Hf, Hf'. simpl in Hf, Hf'.
    rewrite <- append_assoc.
    rewrite !expr_loop_marker;
      [|assumption|assumption|now rewrite no_marker_app, H, Hp|assumption].
    destruct as_ as [[[isql iargs] err]|]; rewrite !append_assoc;
      apply expr_loop_fuel; lia.
Qed.

(** An escaped pair goes to the buffer; nothing else changes. *)
Lemma expr_loop_escape_any (pre post : string) buf out ap err :
  no_marker pre = true ->
  forall fuel fuel',
    String.length (pre ++ "??" ++ post) < fuel -> String.length post < fuel' ->
    expr_loop fuel buf out ap (pre ++ "??" ++ post) err
    = expr_loop fuel' (buf ++ pre ++ "??") out ap post err.
Proof.
  intros H fuel fuel' Hf Hf'.
  destruct err as [e|]; [now rewrite !expr_loop_err, !append_assoc|].
  destruct ap as [|a ap]; [now rewrite !expr_loop_nil, !append_assoc|].
  destruct fuel as [|fuel]; [lia|].
  rewrite length_append in Hf. simpl in Hf.
  change (pre ++ "??" ++ post) with (pre ++ String "?" (String "?" post)).
  rewrite expr_loop_escape by assumption.
  apply expr_loop_fuel; lia.
Qed.

(** The scan of a text that leaves no marker pending ends in a state that
    does not depend on what follows the text. *)
Lemma expr_loop_segment (n : nat) : forall t1,
  String.length t1 <= n ->
  marker_pending t1 = false ->
  forall buf out ap err,
  exists buf' out' ap' err',
    forall rest fuel fuel',
      String.length (t1 ++ rest) < fuel -> String.length rest < fuel' ->
      expr_loop fuel buf out ap (t1 ++ rest) err
      = expr_loop fuel' buf' out' ap' rest err'.
Proof.
  induction n as [|n IH]; intros t1 Hn Hopen buf out ap err.
  { destruct t1; [|simpl in Hn; lia].
    exists buf, out, ap, err. intros. now apply expr_loop_fuel. }
  destruct err as [e|].
  { exists (buf ++ t1), out, ap, (Some e). intros.
    now rewrite !expr_loop_err, !append_assoc. }
  destruct ap as [|[ap0 as_] ap].
  { exists (buf ++ t1), out, [], None. intros.
    now rewrite !expr_loop_nil, !append_assoc. }
  destruct (text_cases t1)
    as [H|[(pre & post & -> & H)|(pre & post & -> & H & Hpost)]].
  - exists (buf ++ t1), out, ((ap0, as_) :: ap), None. intros.
    now apply expr_loop_plain_prefix.
  - rewrite length_append in Hn. simpl in Hn.
    rewrite marker_pending_no_marker in Hopen by assumption.
    cbn [marker_pending Ascii.eqb Bool.eqb] in Hopen.
    destruct (IH post ltac:(lia) Hopen (buf ++ pre ++ "??") out
                 ((ap0, as_) :: ap) None)
      as (buf' & out' & ap' & err' & Hseg).
    exists buf', out', ap', err'. intros rest fuel fuel' Hf Hf'.
    rewrite append_assoc in Hf |- *. cbn [String.append] in Hf |- *.
    rewrite length_append in Hf. simpl in Hf.
    destruct fuel as [|fuel]; [lia|].
    rewrite expr_loop_escape by assumption.
    apply Hseg; lia.
  - rewrite length_append in Hn. simpl in Hn.
    rewrite marker_pending_no_marker in Hopen by assumption.
    destruct (marker_pending_single post Hpost Hopen) as [Hopen' Hrest].
    assert (Hstep : forall buf1 out1 err1,
               exists buf' out' ap' err',
                 forall rest fuel fuel',
                   String.length (post ++ rest) < fuel ->
                   String.length rest < fuel' ->
                   expr_loop fuel buf1 out1 ap (post ++ rest) err1
                   = expr_loop fuel' buf' out' ap' rest err').
    { intros. apply IH; [lia|assumption]. }
    destruct as_ as [[[isql iargs] err]|].
    + destruct (Hstep (buf ++ pre ++ isql) (append out (elems iargs)) err)
        as (buf' & out' & ap' & err' & Hseg).
      exists buf', out', ap', err'. intros rest fuel fuel' Hf Hf'.
      rewrite append_assoc in Hf |- *. cbn [String.append] in Hf |- *.
      rewrite length_append in Hf. simpl in Hf.
      destruct fuel as [|fuel]; [lia|].
      rewrite expr_loop_marker by auto.
      apply Hseg; lia.
    + destruct (Hstep (buf ++ pre ++ "?") (append out [ap0]) None)
        as (buf' & out' & ap' & err' & Hseg).
      exists buf', out', ap', err'. intros rest fuel fuel' Hf Hf'.
      rewrite append_assoc in Hf |- *. cbn [String.append] in Hf |- *.
      rewrite length_append in Hf. simpl in Hf.
      destruct fuel as [|fuel]; [lia|].
      rewrite expr_loop_marker by auto.
      apply Hseg; lia.
Qed.

(** A text whose first marker character opens an escaped pair renders as
    the pair followed by the render of what comes after it. *)
Lemma escaped_first_marker (pre post : string) (args : args_t) :
  no_marker pre = true ->
  ToSQL (Expr (pre ++ "??" ++ post) args)
  = (let '(s, a, e) := ToSQL (Expr post args) in (pre ++ "??" ++ s, a, e)).
Proof.
  intros H. cbn [ToSQL]. unfold expr_ToSQL.
  destruct (fold_left _ (assert_SQLizers ToSQL args) true); [reflexivity|].
  rewrite (expr_loop_escape_any pre post "" None _ None H _
             (S (String.length post))) by lia.
  cbn [String.append].
  rewrite <- (append_nil_r (pre ++ "??")) at 1.
  rewrite expr_loop_prefix.
  destruct (expr_loop _ "" None _ post None) as [[s a] e].
  now rewrite append_assoc.
Qed.

(** C4: an escaped pair in the text of an expression, wherever the scan
    meets it.  Whatever state the scan of the text before the pair ends in,
    the pair adds its two characters to the buffer and leaves the pending
    arguments, the bound arguments and the error as they are; and the text
    that [ToSQL] returns is the render of the text before the pair, the
    pair itself, and a rest. *)
Theorem escaped_marker_verbatim (t1 t2 : string) (args : args_t) :
  marker_pending t1 = false ->
  (forall buf out ap err,
      exists buf' out' ap' err',
        (forall rest,
            expr_loop (S (String.length (t1 ++ rest))) buf out ap
                      (t1 ++ rest) err
            = expr_loop (S (String.length rest)) buf' out' ap' rest err')
        /\ expr_loop (S (String.length (t1 ++ "??" ++ t2))) buf out ap
                     (t1 ++ "??" ++ t2) err
           = expr_loop (S (String.length t2)) (buf' ++ "??") out' ap' t2 err')
  /\ exists s,
      sql_of (ToSQL (Expr (t1 ++ "??" ++ t2) args))
      = sql_of (ToSQL (Expr t1 args)) ++ "??" ++ s.
Proof.
  intros Hopen.
  assert (Hstate : forall buf out ap err,
      exists buf' out' ap' err',
        (forall rest,
            expr_loop (S (String.length (t1 ++ rest))) buf out ap
                      (t1 ++ rest) err
            = expr_loop (S (String.length rest)) buf' out' ap' rest err')
        /\ expr_loop (S (String.length (t1 ++ "??" ++ t2))) buf out ap
                     (t1 ++ "??" ++ t2) err
           = expr_loop (S (String.length t2)) (buf' ++ "??") out' ap' t2 err').
  { intros buf out ap err.
    destruct (expr_loop_segment (String.length t1) t1 (le_n _) Hopen
                buf out ap err) as (buf' & out' & ap' & err' & Hseg).
    exists buf', out', ap', err'. split.
    - intros rest. apply Hseg; lia.
    - rewrite (Hseg ("??" ++ t2) _ (S (String.length ("??" ++ t2))))
        by lia.
      rewrite (expr_loop_escape_any "" t2 buf' out' ap' err' eq_refl _
                 (S (String.length t2))) by (simpl; lia).
      reflexivity. }
  split; [exact Hstate|].
  cbn [ToSQL]. unfold expr_ToSQL.
  destruct (fold_left _ (assert_SQLizers ToSQL args) true).
  { exists t2. reflexivity. }
  destruct (Hstate "" None (assert_SQLizers ToSQL args) None)
    as (buf' & out' & ap' & err' & Hseg & ->).
  specialize (Hseg ""). rewrite append_nil_r in Hseg. rewrite Hseg.
  rewrite (expr_loop_no_marker _ buf' _ _ "") by reflexivity.
  rewrite <- (append_nil_r (buf' ++ "??")), expr_loop_prefix.
  destruct (expr_loop _ "" out' ap' t2 err') as [[s a] e].
  exists s. unfold sql_of. cbn [fst].
  now rewrite append_nil_r, append_assoc.
Qed.

Lemma escaped_marker_verbatim_witness :
  exists s,
    sql_of (ToSQL (Expr ("a = ? AND b IN (" ++ "??" ++ ") AND ?")
                        (Some [VInt 1; VSql (Expr "c" None)])))
    = sql_of (ToSQL (Expr "a = ? AND b IN ("
                          (Some [VInt 1; VSql (Expr "c" None)])))
      ++ "??" ++ s.
Proof.
  apply (proj2 (escaped_marker_verbatim "a = ? AND b IN (" ") AND ?"
                  (Some [VInt 1; VSql (Expr "c" None)]) eq_refl)).
Defined.

(** ** Empty maps and empty conjunctions *)

(** C5, as the code has it: an empty [Eq] and an empty [NotEq] both render
    the true literal, without error, and with the nil argument list: no
    argument, and no slice either. *)
Theorem Eq_empty_true_nil :
  ToSQL (Eq []) = ("(1=1)", None, None)
  /\ ToSQL (NotEq []) = ("(1=1)", None, None)
  /\ length (elems (args_of (ToSQL (Eq [])))) = 0.
Proof. repeat split. Qed.

(** C5 as stated fails: the argument list of an empty [Eq] is nil, not an
    empty slice. *)
Lemma Eq_empty_args_not_empty_slice :
  args_of (ToSQL (Eq [])) <> Some [] /\ args_of (ToSQL (NotEq [])) <> Some [].
Proof. split; discriminate. Qed.

(** C8: a conjunction of no fragment renders the true literal for [And] and
    the false literal for [Or], with an empty, non-nil argument list and no
    error. *)
Theorem conj_empty :
  ToSQL (And []) = ("(1=1)", Some [], None)
  /\ ToSQL (Or []) = ("(1=0)", Some [], None).
Proof. split; reflexivity. Qed.

(** ** Nested failures in expressions *)

Lemma assert_SQLizers_asserted (l : list value) :
  assert_SQLizers ToSQL (Some l) = map asserted l.
Proof. reflexivity. Qed.

Lemma simple_stays_false (ap : list (value * option result)) :
  fold_left (fun (simple : bool) (arg : value * option result) =>
               match snd arg with
               | Some _ => false
               | None => simple
               end) ap false = false.
Proof. induction ap as [|a ap IH]; simpl; [|destruct (snd a)]; auto. Qed.

Lemma not_simple (l1 l2 : list value) (g : fragment) (b : bool) :
  fold_left (fun (simple : bool) (arg : value * option result) =>
               match snd arg with
               | Some _ => false
               | None => simple
               end) (map asserted (l1 ++ VSql g :: l2)) b = false.
Proof.
  rewrite map_app, fold_left_app. cbn [map fold_left asserted snd as_SQLizer].
  apply simple_stays_false.
Qed.

Lemma expr_loop_first_error (g : fragment) (e : error) (l2 : list value) :
  err_of (ToSQL g) = Some e ->
  forall fuel sp l1 buf args,
    String.length sp < fuel ->
    length l1 < count_markers sp ->
    (forall h, In (VSql h) l1 -> err_of (ToSQL h) = None) ->
    err_of (expr_loop fuel buf args (map asserted (l1 ++ VSql g :: l2))
                      sp None) = Some e.
Proof.
  intros Hg. induction fuel as [|fuel IH]; intros sp l1 buf args Hf Hm Hok;
    [lia|].
  destruct (text_cases sp)
    as [H|[(pre & post & -> & H)|(pre & post & -> & H & Hpost)]].
  - rewrite count_markers_none in Hm by assumption. lia.
  - rewrite count_markers_no_marker in Hm by assumption.
    cbn [count_markers Ascii.eqb Bool.eqb] in Hm.
    rewrite length_append in Hf. simpl in Hf.
    destruct (map asserted (l1 ++ VSql g :: l2)) as [|a ap] eqn:Hap.
    { destruct l1; discriminate Hap. }
    rewrite expr_loop_escape by assumption. rewrite <- Hap.
    apply IH; auto. lia.
  - rewrite count_markers_no_marker, count_markers_single in Hm by assumption.
    rewrite length_append in Hf. simpl in Hf.
    destruct l1 as [|a l1]; cbn [app map]; unfold asserted at 1.
    + rewrite expr_loop_marker by assumption. cbn [as_SQLizer].
      destruct (ToSQL g) as [[isql iargs] err]. cbn in Hg. subst err.
      now rewrite expr_loop_err.
    + rewrite expr_loop_marker by assumption.
      assert (Hrec : forall buf args,
                 err_of (expr_loop fuel buf args
                           (map asserted (l1 ++ VSql g :: l2)) post None)
                 = Some e).
      { intros. apply IH; [lia | simpl in Hm; lia |].
        intros h Hh. apply Hok. now right. }
      destruct a; cbn [as_SQLizer]; try apply Hrec.
      specialize (Hok f (or_introl eq_refl)).
      destruct (ToSQL f) as [[isql iargs] err]. cbn in Hok. subst err.
      apply Hrec.
Qed.

(** ** Nested failures in case expressions *)

Lemma first_err_Some (e : error) (items : list fragment) :
  first_err (Some e) items = Some e.
Proof. induction items; simpl; auto. Qed.

Lemma first_err_app (start : option error) (xs ys : list fragment) :
  first_err start (xs ++ ys) = first_err (first_err start xs) ys.
Proof. apply fold_left_app. Qed.

Lemma first_err_none (items : list fragment) :
  (forall h, In h items -> err_of (nestedToSQL ToSQL h) = None) ->
  first_err None items = None.
Proof.
  induction items as [|a items IH]; intros H; [reflexivity|].
  cbn [first_err fold_left]. rewrite (H a (or_introl eq_refl)).
  apply IH. intros h Hh. apply H. now right.
Qed.

Lemma WriteString_err (b : sqlizerBuffer) (s : string) :
  buf_err (WriteString b s) = buf_err b.
Proof. reflexivity. Qed.

Lemma WriteSQL_err (b : sqlizerBuffer) (item : fragment) :
  buf_err (WriteSQL ToSQL b item) = first_err (buf_err b) [item].
Proof.
  unfold WriteSQL. cbn [first_err fold_left].
  destruct (buf_err b) eqn:Hb; [exact Hb|].
  destruct (nestedToSQL ToSQL item) as [[str args] [err|]]; reflexivity.
Qed.

Lemma WhenParts_err (WhenParts : list whenPart) : forall b,
  buf_err (fold_left (fun sql p =>
                        let 'WhenPart when then_ := p in
                        let sql := WriteString sql "WHEN " in
                        let sql := WriteSQL ToSQL sql when in
                        let sql := WriteString sql "THEN " in
                        WriteSQL ToSQL sql then_) WhenParts b)
  = first_err (buf_err b)
      (flat_map (fun p => let 'WhenPart when then_ := p in [when; then_])
                WhenParts).
Proof.
  induction WhenParts as [|[when then_] ps IH]; intros b; [reflexivity|].
  cbn [fold_left flat_map]. rewrite IH, first_err_app.
  repeat (rewrite WriteSQL_err || rewrite WriteString_err). reflexivity.
Qed.

(** A case expression with a WHEN clause fails with the first error its
    pieces meet. *)
Lemma caseData_err What WhenParts Else :
  WhenParts <> [] ->
  err_of (ToSQL (CaseData What WhenParts Else))
  = first_err None (case_children What WhenParts Else).
Proof.
  intros Hne. cbn [ToSQL]. unfold caseData_ToSQL, case_children.
  destruct WhenParts as [|p ps]; [contradiction|].
  cbn [length Nat.eqb]. unfold sqlizerBuffer_ToSQL, err_of. cbn [snd].
  rewrite WriteString_err, !first_err_app.
  destruct Else as [el|].
  - rewrite WriteSQL_err, WriteString_err, WhenParts_err.
    destruct What as [w|];
      [rewrite WriteSQL_err|]; reflexivity.
  - rewrite WhenParts_err.
    destruct What as [w|];
      [rewrite WriteSQL_err|]; reflexivity.
Qed.

(** C1, as the code has it: when the render of an expression reaches a
    fragment argument at a marker, or the render of a case expression
    reaches one of its pieces, and that nested render is the first to fail,
    the surrounding [ToSQL] returns that very error. *)
Theorem nested_error_returned_unchanged (g : fragment) (e : error) :
  (forall sql l1 l2,
      err_of (ToSQL g) = Some e ->
      length l1 < count_markers sql ->
      (forall h, In (VSql h) l1 -> err_of (ToSQL h) = None) ->
      err_of (ToSQL (Expr sql (Some (l1 ++ VSql g :: l2)%list))) = Some e)
  /\ (forall What WhenParts Else c1 c2,
         err_of (nestedToSQL ToSQL g) = Some e ->
         WhenParts <> [] ->
         case_children What WhenParts Else = (c1 ++ g :: c2)%list ->
         (forall h, In h c1 -> err_of (nestedToSQL ToSQL h) = None) ->
         err_of (ToSQL (CaseData What WhenParts Else)) = Some e).
Proof.
  split.
  - intros sql l1 l2 Hg Hm Hok. cbn [ToSQL]. unfold expr_ToSQL.
    rewrite assert_SQLizers_asserted, not_simple.
    apply expr_loop_first_error; auto.
  - intros What WhenParts Else c1 c2 Hg Hne Hch Hok.
    rewrite caseData_err, Hch, first_err_app by assumption.
    rewrite (first_err_none _ Hok). cbn [first_err fold_left].
    rewrite Hg. apply first_err_Some.
Qed.

Lemma nested_error_returned_unchanged_witness :
  err_of (ToSQL (Expr "a = ? AND ?"
                      (Some [VInt 1; VSql (Lt [("x", VNil)]); VInt 2])))
  = Some errLtNull
  /\ err_of (ToSQL (CaseData None
                      [WhenPart (Part (VStr "a") None)
                                (Part (VSql (Lt [("x", VNil)])) None)]
                      (Some (Part (VStr "0") None))))
     = Some errLtNull.
Proof.
  split.
  - apply (proj1 (nested_error_returned_unchanged
                    (Lt [("x", VNil)]) errLtNull)
             "a = ? AND ?" [VInt 1] [VInt 2]).
    + reflexivity.
    + simpl. lia.
    + intros h [H|[]]. discriminate H.
  - apply (proj2 (nested_error_returned_unchanged
                    (Part (VSql (Lt [("x", VNil)])) None) errLtNull)
             None
             [WhenPart (Part (VStr "a") None)
                       (Part (VSql (Lt [("x", VNil)])) None)]
             (Some (Part (VStr "0") None))
             [Part (VStr "a") None] [Part (VStr "0") None]).
    + reflexivity.
    + discriminate.
    + reflexivity.
    + intros h [<-|[]]. reflexivity.
Defined.

(** C1 as stated fails: next to the error of the nested fragment the
    expression and the case expression return the text composed so far, not
    the empty text. *)
Lemma nested_error_keeps_partial_text :
  ToSQL (Lt [("x", VNil)]) = ("", None, Some errLtNull)
  /\ ToSQL (Expr "a ? b" (Some [VSql (Lt [("x", VNil)])]))
     = ("a  b", None, Some errLtNull)
  /\ ToSQL (CaseData None
              [WhenPart (Part (VSql (Lt [("x", VNil)])) None)
                        (Part (VStr "1") None)] None)
     = ("CASE WHEN THEN END", None, Some errLtNull).
Proof. repeat split. Qed.

(** ** Arguments no marker is left for *)





(** ** The debug renderer *)

Section DebugLoop.

Variable fmt_v : value -> string.
Variable fmt_sharp_v : string -> string.
Variable args : args_t.

Lemma debug_loop_no_marker fuel buf sql i :
  no_marker sql = true ->
  debug_loop fmt_v fmt_sharp_v fuel "?" args buf sql i = inr (buf, sql, i).
Proof.
  intros H. destruct fuel; [reflexivity|].
  cbn [debug_loop]. rewrite (Index_no_marker _ H). reflexivity.
Qed.

Lemma debug_loop_escape fuel buf pre post i :
  no_marker pre = true ->
  debug_loop fmt_v fmt_sharp_v (S fuel) "?" args buf
             (pre ++ String "?" (String "?" post)) i
  = debug_loop fmt_v fmt_sharp_v fuel "?" args ((buf ++ pre) ++ "?") post i.
Proof.
  intros H. cbn [debug_loop].
  rewrite (Index_first_marker _ _ H).
  rewrite slice_from_marker, slice_at_marker, slice_to_marker,
    slice_from_past_pair.
  unfold len. cbn [String.length take drop].
  destruct (Z.eqb_spec (Z.of_nat (String.length pre)) (-1)); [lia|].
  destruct (Z.gtb_spec (Z.of_nat (S (S (String.length post)))) 1); [|lia].
  destruct (Z.eqb_spec (Z.of_nat (S (S (String.length post)))) 1); [lia|].
  reflexivity.
Qed.

Lemma debug_loop_marker fuel buf pre post i :
  no_marker pre = true ->
  starts_with_marker post = false ->
  debug_loop fmt_v fmt_sharp_v (S fuel) "?" args buf
             (pre ++ String "?" post) i
  = if (length (elems args) <? i + 1)%nat then
      inl (too_many_placeholders fmt_sharp_v (pre ++ String "?" post) args)
    else
      debug_loop fmt_v fmt_sharp_v fuel "?" args
                 ((buf ++ pre) ++ "'" ++ fmt_v (nth i (elems args) VNil) ++ "'")
                 post (i + 1).
Proof.
  intros H Hpost. cbn [debug_loop].
  rewrite (Index_first_marker _ _ H).
  rewrite slice_at_marker, slice_to_marker, slice_from_past_marker.
  destruct (Z.eqb_spec (Z.of_nat (String.length pre)) (-1)); [lia|].
  assert (Hne : (String "?" (take 1 post) =? "??") = false).
  { destruct post as [|c post]; [reflexivity|].
    simpl in Hpost. simpl. rewrite Hpost. reflexivity. }
  rewrite Hne, andb_false_r. reflexivity.
Qed.



(** Fuel beyond the length of the remaining text makes no difference. *)
Lemma debug_loop_fuel fuel1 : forall fuel2 buf sql i,
  String.length sql < fuel1 -> String.length sql < fuel2 ->
  debug_loop fmt_v fmt_sharp_v fuel1 "?" args buf sql i
  = debug_loop fmt_v fmt_sharp_v fuel2 "?" args buf sql i.
Proof.
  induction fuel1 as [|fuel1 IH]; intros fuel2 buf sql i H1 H2; [lia|].
  destruct fuel2 as [|fuel2]; [lia|].
  destruct (text_cases sql)
    as [H|[(pre & post & -> & H)|(pre & post & -> & H & Hpost)]].
  - now rewrite !debug_loop_no_marker.
  - rewrite !debug_loop_escape by assumption.
    rewrite length_append in H1, H2. simpl in H1, H2.
    apply IH; lia.
  - rewrite !debug_loop_marker by assumption.
    rewrite length_append in H1, H2. simpl in H1, H2.
    destruct (length (elems args) <? i + 1)%nat; [reflexivity|].
    apply IH; lia.
Qed.

End DebugLoop.



(** ** List values under equality *)





(** ** Null and list values under comparison and pattern matching *)

Lemma lookup_In (m : gomap) (k : string) (v : value) :
  NoDup (map fst m) -> In (k, v) m -> lookup m k = v.
Proof.
  induction m as [|[k' v'] m IH]; intros Hnd Hin; [contradiction|].
  cbn [map fst] in Hnd. inversion Hnd as [|? ? Hk' Hnd']; subst.
  cbn [lookup]. destruct Hin as [Heq|Hin].
  - injection Heq as -> ->. now rewrite String.eqb_refl.
  - destruct (String.eqb_spec k' k) as [->|Hne]; [|auto].
    exfalso. apply Hk'. apply in_map_iff. now exists (k, v).
Qed.

Lemma lookup_Valuer_In (m : gomap) (k : string) (v : value) (e : option error) :
  lookup m k = VValuer v e -> In (k, VValuer v e) m.
Proof.
  induction m as [|[k' v'] m IH]; cbn [lookup]; [discriminate|].
  destruct (String.eqb_spec k' k) as [->|Hne]; intros H.
  - left. now rewrite H.
  - right. auto.
Qed.

Lemma valuer_value_err (val v : value) (e : error) :
  valuer_value val = (v, Some e) -> val = VValuer v (Some e).
Proof.
  destruct val; cbn; intros H; try discriminate H.
  injection H as <- <-. reflexivity.
Qed.






(** ** Key order *)

Lemma compare_Lt_trans (a : string) : forall b c,
  String.compare a b = Datatypes.Lt -> String.compare b c = Datatypes.Lt ->
  String.compare a c = Datatypes.Lt.
Proof.
  induction a as [|x a IH]; intros [|y b] [|z c]; cbn [String.compare];
    try discriminate; auto.
  unfold Ascii.compare.
  destruct (N.compare_spec (N_of_ascii x) (N_of_ascii y)) as [Exy|Lxy|Gxy];
    try discriminate;
    destruct (N.compare_spec (N_of_ascii y) (N_of_ascii z)) as [Eyz|Lyz|Gyz];
    try discriminate; intros H1 H2.
  - rewrite Exy, Eyz, N.compare_refl. eauto.
  - rewrite Exy. now apply N.compare_lt_iff in Lyz as ->.
  - rewrite <- Eyz. now apply N.compare_lt_iff in Lxy as ->.
  - assert (Hxz : (N_of_ascii x < N_of_ascii z)%N) by lia.
    now apply N.compare_lt_iff in Hxz as ->.
Qed.

Lemma leb_trans (a b c : string) :
  String.leb a b = true -> String.leb b c = true -> String.leb a c = true.
Proof.
  unfold String.leb.
  destruct (String.compare a b) eqn:Hab; try discriminate;
    destruct (String.compare b c) eqn:Hbc; try discriminate; intros _ _.
  - apply String.compare_eq_iff in Hab as ->. now rewrite Hbc.
  - apply String.compare_eq_iff in Hab as ->. now rewrite Hbc.
  - apply String.compare_eq_iff in Hbc as <-. now rewrite Hab.
  - now rewrite (compare_Lt_trans _ _ _ Hab Hbc).
Qed.

(** A list has one sorted arrangement. *)
Lemma sorted_unique (l1 : list string) : forall l2,
  StronglySorted (fun x y => is_true (String.leb x y)) l1 ->
  StronglySorted (fun x y => is_true (String.leb x y)) l2 ->
  Permutation l1 l2 -> l1 = l2.
Proof.
  induction l1 as [|a l1 IH]; intros l2 H1 H2 Hp.
  - apply Permutation_nil in Hp. now subst.
  - destruct l2 as [|b l2].
    { apply Permutation_sym, Permutation_nil in Hp. discriminate. }
    inversion H1 as [|? ? S1 F1]; inversion H2 as [|? ? S2 F2]; subst.
    assert (Hab : a = b).
    { assert (Ha : In a (b :: l2))
        by (apply (Permutation_in _ Hp); now left).
      assert (Hb : In b (a :: l1))
        by (apply (Permutation_in _ (Permutation_sym Hp)); now left).
      destruct Ha as [->|Ha]; [reflexivity|].
      destruct Hb as [->|Hb]; [reflexivity|].
      rewrite Forall_forall in F1, F2.
      apply String.leb_antisym; [apply F1 | apply F2]; assumption. }
    subst b. f_equal. apply IH; auto.
    now apply Permutation_cons_inv in Hp.
Qed.

Lemma getSortedKeys_Permutation (m m' : gomap) :
  Permutation m m' -> getSortedKeys m = getSortedKeys m'.
Proof.
  intros Hp. unfold getSortedKeys.
  assert (Htrans : Relations_1.Transitive
                     (fun x y => is_true (StringOrder.leb x y))).
  { intros x y z. apply leb_trans. }
  apply sorted_unique.
  - apply SortStrings.StronglySorted_sort, Htrans.
  - apply SortStrings.StronglySorted_sort, Htrans.
  - eapply Permutation_trans;
      [apply Permutation_sym, SortStrings.Permuted_sort|].
    eapply Permutation_trans; [|apply SortStrings.Permuted_sort].
    now apply Permutation_map.
Qed.

Lemma lookup_absent (m : gomap) (k : string) :
  ~ In k (map fst m) -> lookup m k = VNil.
Proof.
  induction m as [|[k' v'] m IH]; intros H; [reflexivity|].
  cbn [lookup]. destruct (String.eqb_spec k' k) as [->|Hne].
  - exfalso. apply H. now left.
  - apply IH. intros Hin. apply H. now right.
Qed.

Lemma lookup_Permutation (m m' : gomap) (k : string) :
  NoDup (map fst m) -> Permutation m m' -> lookup m k = lookup m' k.
Proof.
  intros Hnd Hp.
  assert (Hpk : Permutation (map fst m) (map fst m'))
    by now apply Permutation_map.
  assert (Hnd' : NoDup (map fst m'))
    by exact (Permutation_NoDup Hpk Hnd).
  destruct (in_dec string_dec k (map fst m)) as [Hin|Hout].
  - apply in_map_iff in Hin as ([k0 v] & Hk0 & Hin). cbn in Hk0. subst k0.
    rewrite (lookup_In m k v Hnd Hin).
    symmetry. apply lookup_In; [assumption|].
    exact (Permutation_in _ Hp Hin).
  - rewrite (lookup_absent m k Hout).
    symmetry. apply lookup_absent. intros Hin. apply Hout.
    exact (Permutation_in _ (Permutation_sym Hpk) Hin).
Qed.

Lemma Eq_loop_lookup (m m' : gomap) equalOpr inOpr nullOpr inEmptyExpr :
  (forall k, lookup m k = lookup m' k) ->
  forall keys exprs args,
    Eq_loop m equalOpr inOpr nullOpr inEmptyExpr keys exprs args
    = Eq_loop m' equalOpr inOpr nullOpr inEmptyExpr keys exprs args.
Proof.
  intros H. induction keys as [|k keys IH]; intros exprs args; [reflexivity|].
  cbn [Eq_loop]. rewrite H.
  destruct (valuer_value (lookup m' k)) as [v [e|]]; [reflexivity|].
  destruct (Eq_expr _ _ _ _ _ _ _). apply IH.
Qed.

Lemma Lt_loop_lookup (m m' : gomap) (opr : string) :
  (forall k, lookup m k = lookup m' k) ->
  forall keys exprs args,
    Lt_loop m opr keys exprs args = Lt_loop m' opr keys exprs args.
Proof.
  intros H. induction keys as [|k keys IH]; intros exprs args; [reflexivity|].
  cbn [Lt_loop]. rewrite H.
  destruct (valuer_value (lookup m' k)) as [v [e|]]; [reflexivity|].
  destruct (is_nil v); [reflexivity|].
  destruct (isListType v); [reflexivity|]. apply IH.
Qed.

(** The maps that sort their keys render the same whatever the order in
    which [range] yields the entries. *)
Lemma sorted_maps_order_independent (m m' : gomap) :
  NoDup (map fst m) -> Permutation m m' ->
  (forall useNotOpr, Eq_toSQL m useNotOpr = Eq_toSQL m' useNotOpr)
  /\ (forall opposite orEq,
         Lt_toSQL m opposite orEq = Lt_toSQL m' opposite orEq).
Proof.
  intros Hnd Hp.
  pose proof (fun k => lookup_Permutation m m' k Hnd Hp) as Hl.
  split; intros.
  - unfold Eq_toSQL.
    rewrite (Permutation_length Hp), (getSortedKeys_Permutation _ _ Hp).
    destruct (length m' =? 0)%nat; [reflexivity|]. now apply Eq_loop_lookup.
  - unfold Lt_toSQL. rewrite (getSortedKeys_Permutation _ _ Hp).
    now apply Lt_loop_lookup.
Qed.

(** C2 on the code: the pattern-match maps do not sort.  The same [Like]
    map, its two entries yielded in one order or the other, renders two
    different texts with the arguments in two different orders; the second
    is not the order of the sorted keys. *)
Theorem Like_render_follows_range_order :
  Permutation [("a", VInt 1); ("b", VInt 2)] [("b", VInt 2); ("a", VInt 1)]
  /\ ToSQL (Like [("a", VInt 1); ("b", VInt 2)])
     = ("a LIKE ? AND b LIKE ?", Some [VInt 1; VInt 2], None)
  /\ ToSQL (Like [("b", VInt 2); ("a", VInt 1)])
     = ("b LIKE ? AND a LIKE ?", Some [VInt 2; VInt 1], None)
  /\ getSortedKeys [("b", VInt 2); ("a", VInt 1)] = ["a"; "b"].
Proof. repeat split. apply perm_swap. Qed.

(** * Further properties *)

(** ** Markers of a text put together from pieces *)

Lemma marker_pending_after_marker (s : string) :
  starts_with_marker s = false -> s <> "" ->
  marker_pending (String "?" s) = marker_pending s.
Proof.
  destruct s as [|c s]; [congruence|].
  cbn [starts_with_marker marker_pending Ascii.eqb Bool.eqb].
  intros Hc _. now rewrite Hc.
Qed.

Lemma starts_with_marker_app (a b : string) :
  a <> "" -> starts_with_marker (a ++ b) = starts_with_marker a.
Proof. destruct a; [congruence | reflexivity]. Qed.

Lemma marker_pending_none (s : string) :
  no_marker s = true -> marker_pending s = false.
Proof.
  intros H. rewrite <- (append_nil_r s).
  now rewrite marker_pending_no_marker.
Qed.

(** Markers add up across a join where the left text leaves no marker
    pending or the right text does not begin with the marker character. *)
Lemma count_markers_app_le (n : nat) : forall a b,
  String.length a <= n ->
  marker_pending a = false \/ starts_with_marker b = false ->
  count_markers (a ++ b) = count_markers a + count_markers b.
Proof.
  induction n as [|n IH]; intros a b Hn H.
  { destruct a; [reflexivity | simpl in Hn; lia]. }
  destruct (text_cases a)
    as [Ha|[(pre & post & -> & Hp)|(pre & post & -> & Hp & Hpost)]].
  - now rewrite count_markers_no_marker, (count_markers_none a Ha).
  - rewrite length_append in Hn. simpl in Hn.
    rewrite marker_pending_no_marker in H by assumption.
    cbn [marker_pending Ascii.eqb Bool.eqb] in H.
    rewrite append_assoc. cbn [String.append].
    rewrite !count_markers_no_marker by assumption.
    cbn [count_markers Ascii.eqb Bool.eqb]. apply IH; [lia|assumption].
  - rewrite length_append in Hn. simpl in Hn.
    rewrite marker_pending_no_marker in H by assumption.
    rewrite append_assoc. cbn [String.append].
    rewrite !count_markers_no_marker by assumption.
    destruct post as [|c post].
    + destruct H as [H|H]; [discriminate H|].
      cbn [String.append]. now rewrite count_markers_single.
    + rewrite marker_pending_after_marker in H by (auto; discriminate).
      rewrite !count_markers_single;
        [|assumption|rewrite starts_with_marker_app; [assumption|discriminate]].
      rewrite IH; [simpl; lia | cbn [String.length] in Hn |- *; lia
                 | assumption].
Qed.

Lemma count_markers_app (a b : string) :
  marker_pending a = false \/ starts_with_marker b = false ->
  count_markers (a ++ b) = count_markers a + count_markers b.
Proof. apply (count_markers_app_le (String.length a)). lia. Qed.

Lemma marker_pending_app_le (n : nat) : forall a b,
  String.length a <= n ->
  marker_pending a = false \/ (starts_with_marker b = false /\ b <> "") ->
  marker_pending (a ++ b) = marker_pending b.
Proof.
  induction n as [|n IH]; intros a b Hn H.
  { destruct a; [reflexivity | simpl in Hn; lia]. }
  destruct (text_cases a)
    as [Ha|[(pre & post & -> & Hp)|(pre & post & -> & Hp & Hpost)]].
  - now rewrite marker_pending_no_marker.
  - rewrite length_append in Hn. simpl in Hn.
    rewrite marker_pending_no_marker in H by assumption.
    cbn [marker_pending Ascii.eqb Bool.eqb] in H.
    rewrite append_assoc. cbn [String.append].
    rewrite marker_pending_no_marker by assumption.
    cbn [marker_pending Ascii.eqb Bool.eqb]. apply IH; [lia|assumption].
  - rewrite length_append in Hn. simpl in Hn.
    rewrite marker_pending_no_marker in H by assumption.
    rewrite append_assoc. cbn [String.append].
    rewrite marker_pending_no_marker by assumption.
    destruct post as [|c post].
    + destruct H as [H|[Hb Hne]]; [discriminate H|].
      cbn [String.append]. now apply marker_pending_after_marker.
    + rewrite marker_pending_after_marker in H by (auto; discriminate).
      rewrite marker_pending_after_marker;
        [|rewrite starts_with_marker_app; [assumption|discriminate]
         |discriminate].
      apply IH; [cbn [String.length] in Hn |- *; lia | assumption].
Qed.

Lemma marker_pending_app (a b : string) :
  marker_pending a = false \/ (starts_with_marker b = false /\ b <> "") ->
  marker_pending (a ++ b) = marker_pending b.
Proof. apply (marker_pending_app_le (String.length a)). lia. Qed.

(** The text up to the next marker closes what the buffer left pending. *)
Lemma closed_before_marker (buf pre rest : string) :
  no_marker pre = true ->
  marker_pending buf = false
  \/ starts_with_marker (pre ++ String "?" rest) = false ->
  marker_pending (buf ++ pre) = false
  /\ count_markers (buf ++ pre) = count_markers buf.
Proof.
  intros Hp H.
  assert (H' : marker_pending buf = false
               \/ (starts_with_marker pre = false /\ pre <> "")).
  { destruct H as [H|H]; [now left|]. right.
    destruct pre as [|c pre]; [discriminate H|]. split; [exact H|discriminate]. }
  split.
  - rewrite marker_pending_app by assumption. now apply marker_pending_none.
  - rewrite count_markers_app, (count_markers_none pre Hp) by tauto. lia.
Qed.

(** ** Markers and arguments of a composed expression *)

Lemma length_elems_append {A} (s : slice_of A) (xs : list A) :
  length (elems (append s xs)) = length (elems s) + length xs.
Proof. now rewrite elems_append, length_app. Qed.

Lemma expr_loop_aligned : forall fuel sp l buf out,
  String.length sp < fuel ->
  marker_pending buf = false \/ starts_with_marker sp = false ->
  (forall a, In a (firstn (count_markers sp) l) -> aligned a) ->
  exists text out',
    expr_loop fuel buf out (map asserted l) sp None = (text, out', None)
    /\ count_markers text + length (elems out) + length l
       = count_markers buf + count_markers sp + length (elems out').
Proof.
  induction fuel as [|fuel IH]; intros sp l buf out Hf Hinv Hal; [lia|].
  destruct l as [|a l].
  { cbn [map]. rewrite expr_loop_nil. eexists _, _. split; [reflexivity|].
    rewrite count_markers_app by assumption. simpl. lia. }
  destruct (text_cases sp)
    as [H|[(pre & post & -> & H)|(pre & post & -> & H & Hpost)]].
  - rewrite expr_loop_no_marker by assumption.
    unfold asserted. rewrite map_fst_assert.
    eexists _, _. split; [reflexivity|].
    rewrite count_markers_app, length_elems_append by assumption.
    simpl. lia.
  - destruct (closed_before_marker buf pre _ H Hinv) as [Hclosed Hcount].
    rewrite count_markers_no_marker in Hal |- * by assumption.
    cbn [count_markers Ascii.eqb Bool.eqb] in Hal |- *.
    rewrite length_append in Hf. simpl in Hf.
    cbn [map]. rewrite expr_loop_escape by assumption.
    change (asserted a :: map asserted l) with (map asserted (a :: l)).
    destruct (IH post (a :: l) (buf ++ pre ++ "??") out) as (text & out' & -> & E);
      [lia| |assumption|].
    + left. rewrite <- append_assoc.
      now rewrite marker_pending_app by (now left).
    + exists text, out'. split; [reflexivity|].
      rewrite <- append_assoc, count_markers_app in E by (now left).
      simpl in E |- *. lia.
  - destruct (closed_before_marker buf pre _ H Hinv) as [Hclosed Hcount].
    rewrite count_markers_no_marker, count_markers_single in Hal |- *
      by assumption.
    cbn [firstn] in Hal.
    assert (Ha : aligned a) by (apply Hal; now left).
    assert (Hl : forall x, In x (firstn (count_markers post) l) -> aligned x)
      by (intros x Hx; apply Hal; now right).
    rewrite length_append in Hf. simpl in Hf.
    cbn [map]. unfold asserted at 1. rewrite expr_loop_marker by assumption.
    assert (Hplain :
      exists text out',
        expr_loop fuel (buf ++ pre ++ "?") (append out [a]) (map asserted l)
                  post None = (text, out', None)
        /\ count_markers text + length (elems out) + length (a :: l)
           = count_markers buf + S (count_markers post)
             + length (elems out')).
    { destruct (IH post l (buf ++ pre ++ "?") (append out [a]))
        as (text & out' & -> & E); [lia|now right|assumption|].
      exists text, out'. split; [reflexivity|].
      rewrite <- append_assoc, count_markers_app in E by (now left).
      rewrite length_elems_append in E. simpl in E |- *. lia. }
    destruct a; cbn [as_SQLizer]; try exact Hplain.
    destruct Ha as [Herr Hbal].
    destruct (ToSQL f) as [[isql iargs] err]. cbn in Herr, Hbal. subst err.
    destruct (IH post l (buf ++ pre ++ isql) (append out (elems iargs)))
      as (text & out' & -> & E); [lia|now right|assumption|].
    exists text, out'. split; [reflexivity|].
    rewrite <- append_assoc, count_markers_app in E by (now left).
    rewrite length_elems_append in E. simpl in E |- *. lia.
Qed.

(** X1: The mismatch between markers and arguments goes through composition
    as it is: when the fragments matched to markers render aligned texts,
    the render succeeds and the output has as many markers more (or fewer)
    than arguments as the input had.  In particular as many arguments as
    markers in gives as many arguments as markers out. *)
Theorem expr_alignment (sql : string) (args : args_t) :
  (forall a, In a (firstn (count_markers sql) (elems args)) -> aligned a) ->
  exists text out,
    ToSQL (Expr sql args) = (text, out, None)
    /\ count_markers text + length (elems args)
       = count_markers sql + length (elems out).
Proof.
  intros Hal. cbn [ToSQL]. unfold expr_ToSQL.
  destruct (fold_left _ (assert_SQLizers ToSQL args) true).
  { exists sql, args. split; [reflexivity|lia]. }
  replace (assert_SQLizers ToSQL args) with (map asserted (elems args))
    by now destruct args.
  destruct (expr_loop_aligned (S (String.length sql)) sql (elems args) "" None)
    as (text & out & -> & E); [lia|now left|assumption|].
  exists text, out. split; [reflexivity|]. simpl in E. lia.
Qed.

Lemma expr_alignment_witness :
  exists text out,
    ToSQL (Expr "a = ? AND ?"
                (Some [VInt 1; VSql (Eq [("b", VList [VInt 2; VInt 3])])]))
    = (text, out, None)
    /\ count_markers text + 2 = 2 + length (elems out).
Proof.
  apply (expr_alignment "a = ? AND ?"
           (Some [VInt 1; VSql (Eq [("b", VList [VInt 2; VInt 3])])])).
  intros a [<-|[<-|[]]]; simpl; auto.
Defined.

Lemma expr_loop_plain : forall fuel sp l buf out,
  String.length sp < fuel ->
  (forall f, ~ In (VSql f) l) ->
  expr_loop fuel buf out (map asserted l) sp None
  = (buf ++ sp, append out l, None).
Proof.
  induction fuel as [|fuel IH]; intros sp l buf out Hf Hl; [lia|].
  destruct l as [|a l]; [now rewrite expr_loop_nil|].
  destruct (text_cases sp)
    as [H|[(pre & post & -> & H)|(pre & post & -> & H & Hpost)]].
  - rewrite expr_loop_no_marker by assumption.
    unfold asserted. now rewrite map_fst_assert.
  - rewrite length_append in Hf. simpl in Hf.
    cbn [map]. rewrite expr_loop_escape by assumption.
    change (asserted a :: map asserted l) with (map asserted (a :: l)).
    rewrite IH by (auto; lia). now rewrite !append_assoc.
  - rewrite length_append in Hf. simpl in Hf.
    cbn [map]. unfold asserted at 1. rewrite expr_loop_marker by assumption.
    assert (Hl' : forall f, ~ In (VSql f) l)
      by (intros f Hin; apply (Hl f); now right).
    destruct a; cbn [as_SQLizer];
      try (rewrite IH by (auto; lia);
           now rewrite !append_assoc, append_append).
    exfalso. apply (Hl f). now left.
Qed.

(** X2: The fast path is a shortcut: the scan itself leaves the text of an
    expression without fragment arguments as it is and binds the arguments
    in their order. *)
Theorem expr_scan_without_fragments (sql : string) (l : list value) :
  (forall f, ~ In (VSql f) l) ->
  expr_loop (S (String.length sql)) "" None (assert_SQLizers ToSQL (Some l))
            sql None
  = (sql, append None l, None).
Proof.
  intros Hl. rewrite assert_SQLizers_asserted.
  now rewrite expr_loop_plain by (auto; lia).
Qed.

Lemma expr_scan_without_fragments_witness :
  expr_loop (S (String.length "x = ? AND y = '??'")) "" None
            (assert_SQLizers ToSQL (Some [VInt 1; VStr "t"]))
            "x = ? AND y = '??'" None
  = ("x = ? AND y = '??'", Some [VInt 1; VStr "t"], None).
Proof.
  apply (expr_scan_without_fragments "x = ? AND y = '??'" [VInt 1; VStr "t"]).
  intros f [H|[H|[]]]; discriminate H.
Defined.

(** ** Conjunctions *)

Lemma conj_loop_rendered (sep : string) : forall c sqlParts args,
  (forall h, In h c -> err_of (nestedToSQL ToSQL h) = None) ->
  conj_loop ToSQL c sep sqlParts args
  = (let rs := with_text (map (nestedToSQL ToSQL) c) in
     let ps := (sqlParts ++ map sql_of rs)%list in
     (if (0 <? length ps)%nat then "(" ++ Join ps sep ++ ")" else "",
      append args (flat_map (fun r => elems (args_of r)) rs), None)).
Proof.
  induction c as [|h c IH]; intros sqlParts args Hok.
  - cbn. now rewrite app_nil_r.
  - cbn [conj_loop map with_text filter].
    pose proof (Hok h (or_introl eq_refl)) as Hh.
    destruct (nestedToSQL ToSQL h) as [[partSQL partArgs] err].
    cbn in Hh. subst err.
    change (sql_of (partSQL, partArgs, None)) with partSQL.
    assert (Hc : forall x, In x c -> err_of (nestedToSQL ToSQL x) = None)
      by (intros x Hx; apply Hok; now right).
    cbn zeta. unfold with_text. cbn [map filter].
    change (sql_of (partSQL, partArgs, None)) with partSQL.
    destruct (negb (partSQL =? "")); rewrite IH by assumption;
      [|reflexivity].
    cbn zeta. unfold with_text. cbn [map flat_map].
    change (sql_of (partSQL, partArgs, None)) with partSQL.
    change (args_of (partSQL, partArgs, None)) with partArgs.
    now rewrite <- app_assoc, append_append.
Qed.

(** X3: A conjunction of at least one fragment, all of which render: the texts
    that are not empty, joined by the operator, between one pair of
    parentheses, or the empty text when every child renders the empty text;
    the arguments are those of the children that have a text, in order. *)
Theorem conj_rendered (c : list fragment) :
  c <> [] ->
  (forall h, In h c -> err_of (nestedToSQL ToSQL h) = None) ->
  let rs := with_text (map (nestedToSQL ToSQL) c) in
  let text sep :=
    if (0 <? length rs)%nat then "(" ++ Join (map sql_of rs) sep ++ ")"
    else "" in
  let args := append None (flat_map (fun r => elems (args_of r)) rs) in
  ToSQL (And c) = (text " AND ", args, None)
  /\ ToSQL (Or c) = (text " OR ", args, None).
Proof.
  intros Hne Hok rs text args. cbn [ToSQL]. unfold conj_join.
  destruct c as [|h c]; [contradiction|]. cbn [length Nat.eqb].
  rewrite !conj_loop_rendered by assumption. cbn [app].
  subst rs text args. cbn zeta. rewrite length_map. split; reflexivity.
Qed.

Lemma conj_rendered_witness :
  ToSQL (And [Eq [("id", VInt 1)]; Expr "" None; Expr "NOT c1" None])
  = ("(id = ? AND NOT c1)", Some [VInt 1], None)
  /\ ToSQL (Or [Eq [("id", VInt 1)]; Expr "" None; Expr "NOT c1" None])
     = ("(id = ? OR NOT c1)", Some [VInt 1], None).
Proof.
  apply (conj_rendered [Eq [("id", VInt 1)]; Expr "" None; Expr "NOT c1" None]).
  - discriminate.
  - intros h [<-|[<-|[<-|[]]]]; reflexivity.
Defined.

Lemma conj_loop_first_error (sep : string) (g : fragment) (e : error)
    (c2 : list fragment) :
  err_of (nestedToSQL ToSQL g) = Some e ->
  forall c1 sqlParts args,
    (forall h, In h c1 -> err_of (nestedToSQL ToSQL h) = None) ->
    conj_loop ToSQL (c1 ++ g :: c2) sep sqlParts args = ("", None, Some e).
Proof.
  intros Hg. induction c1 as [|h c1 IH]; intros sqlParts args Hok.
  - cbn [app conj_loop].
    destruct (nestedToSQL ToSQL g) as [[partSQL partArgs] err].
    cbn in Hg. now subst err.
  - cbn [app conj_loop].
    pose proof (Hok h (or_introl eq_refl)) as Hh.
    destruct (nestedToSQL ToSQL h) as [[partSQL partArgs] err].
    cbn in Hh. subst err.
    assert (Hc : forall x, In x c1 -> err_of (nestedToSQL ToSQL x) = None)
      by (intros x Hx; apply Hok; now right).
    destruct (negb (partSQL =? "")); now apply IH.
Qed.

(** X4: A conjunction gives up at the first child that fails: it returns that
    error with the empty text and no argument list, whatever the children
    before it rendered. *)
Theorem conj_first_error (c1 c2 : list fragment) (g : fragment) (e : error) :
  err_of (nestedToSQL ToSQL g) = Some e ->
  (forall h, In h c1 -> err_of (nestedToSQL ToSQL h) = None) ->
  ToSQL (And (c1 ++ g :: c2)) = ("", None, Some e)
  /\ ToSQL (Or (c1 ++ g :: c2)) = ("", None, Some e).
Proof.
  intros Hg Hok. cbn [ToSQL]. unfold conj_join.
  replace (length (c1 ++ g :: c2) =? 0)%nat with false
    by (destruct c1; reflexivity).
  now rewrite !(conj_loop_first_error _ g e c2 Hg c1).
Qed.

Lemma conj_first_error_witness :
  ToSQL (And ([Eq [("id", VInt 1)]] ++ Lt [("x", VNil)] :: [Expr "c" None]))
  = ("", None, Some errLtNull)
  /\ ToSQL (Or ([Eq [("id", VInt 1)]] ++ Lt [("x", VNil)] :: [Expr "c" None]))
     = ("", None, Some errLtNull).
Proof.
  apply (conj_first_error [Eq [("id", VInt 1)]] [Expr "c" None]
           (Lt [("x", VNil)]) errLtNull).
  - reflexivity.
  - intros h [<-|[]]. reflexivity.
Defined.

(** ** Concatenations *)

Lemma concatExpr_loop_shift : forall ce sql0 args0 s a,
  concatExpr_loop ToSQL ce sql0 args0 = (s, a, None) ->
  forall sql args,
    concatExpr_loop ToSQL ce (sql ++ sql0) (append args (elems args0))
    = (sql ++ s, append args (elems a), None).
Proof.
  induction ce as [|part ce IH]; intros sql0 args0 s a H sql args.
  - cbn in H |- *. now injection H as <- <-.
  - cbn [concatExpr_loop] in H |- *. destruct part; try discriminate H.
    + rewrite append_assoc. now apply IH.
    + destruct (ToSQL f) as [[pSQL pArgs] [err|]]; [discriminate H|].
      rewrite append_assoc, append_append, <- elems_append.
      now apply IH.
Qed.

Lemma concatExpr_loop_app : forall a b sql args,
  concatExpr_loop ToSQL (a ++ b) sql args
  = match concatExpr_loop ToSQL a sql args with
    | (s, ar, None) => concatExpr_loop ToSQL b s ar
    | failed => failed
    end.
Proof.
  induction a as [|part a IH]; intros b sql args; [reflexivity|].
  cbn [app concatExpr_loop]. destruct part; try reflexivity.
  - apply IH.
  - destruct (ToSQL f) as [[pSQL pArgs] [err|]]; [reflexivity|apply IH].
Qed.

(** X5: Concatenations compose: the render of two lists of parts one after the
    other is the two texts one after the other and the two argument lists
    one after the other. *)
Theorem concatExpr_app (a b : list value) (s1 s2 : string) (a1 a2 : args_t) :
  ToSQL (ConcatExpr a) = (s1, a1, None) ->
  ToSQL (ConcatExpr b) = (s2, a2, None) ->
  ToSQL (ConcatExpr (a ++ b)) = (s1 ++ s2, append a1 (elems a2), None).
Proof.
  cbn [ToSQL]. unfold concatExpr_ToSQL. intros Ha Hb.
  rewrite concatExpr_loop_app, Ha.
  pose proof (concatExpr_loop_shift b "" None s2 a2 Hb s1 a1) as H.
  now rewrite append_nil_r in H.
Qed.

Lemma concatExpr_app_witness :
  ToSQL (ConcatExpr ([VStr "COALESCE(name,"]
                       ++ [VSql (Expr "CONCAT(?,' ',?)"
                                      (Some [VStr "f"; VStr "l"]));
                           VStr ")"]))
  = ("COALESCE(name," ++ "CONCAT(?,' ',?))",
     append None (elems (Some [VStr "f"; VStr "l"])), None).
Proof.
  apply (concatExpr_app [VStr "COALESCE(name,"]
           [VSql (Expr "CONCAT(?,' ',?)" (Some [VStr "f"; VStr "l"]));
            VStr ")"]); reflexivity.
Defined.

(** X6: A concatenation gives up at the first part it cannot render, a fragment
    that fails or a part that is neither a string nor a fragment: it returns
    the error of the fragment, or an error naming the part, with the empty
    text and no argument list. *)
Theorem concatExpr_first_error (a b : list value) (part : value)
    (s1 : string) (a1 : args_t) (e : error) :
  ToSQL (ConcatExpr a) = (s1, a1, None) ->
  match part with
  | VStr _ => False
  | VSql p => err_of (ToSQL p) = Some e
  | _ => e = Errorf "%#v is not a string or SQLizer" [part]
  end ->
  ToSQL (ConcatExpr (a ++ part :: b)) = ("", None, Some e).
Proof.
  cbn [ToSQL]. unfold concatExpr_ToSQL. intros Ha Hpart.
  rewrite concatExpr_loop_app, Ha. cbn [concatExpr_loop].
  destruct part; try contradiction; try now subst e.
  destruct (ToSQL f) as [[pSQL pArgs] err]. cbn in Hpart. now subst err.
Qed.

Lemma concatExpr_first_error_witness :
  ToSQL (ConcatExpr ([VStr "prefix"] ++ VInt 123 :: [VStr "suffix"]))
  = ("", None, Some (Errorf "%#v is not a string or SQLizer" [VInt 123])).
Proof.
  apply (concatExpr_first_error [VStr "prefix"] [VStr "suffix"] (VInt 123)
           "prefix" None); reflexivity.
Defined.

(** ** Case expressions that render *)

Lemma WriteSQL_ok (b : sqlizerBuffer) (item : fragment) :
  buf_err b = None ->
  err_of (nestedToSQL ToSQL item) = None ->
  WriteSQL ToSQL b item
  = mkBuffer (Buffer b ++ case_piece item)
             (append (buf_args b) (nested_args item)) None.
Proof.
  intros Hb Hitem. unfold WriteSQL, case_piece, nested_args. rewrite Hb.
  destruct (nestedToSQL ToSQL item) as [[str args] err].
  cbn in Hitem. subst err. unfold WriteString, WriteByte. cbn.
  now rewrite append_assoc.
Qed.

Lemma WhenParts_ok (WhenParts : list whenPart) : forall text args,
  (forall h,
      In h (flat_map (fun p => let 'WhenPart when then_ := p in [when; then_])
                     WhenParts) ->
      err_of (nestedToSQL ToSQL h) = None) ->
  fold_left (fun sql p =>
               let 'WhenPart when then_ := p in
               let sql := WriteString sql "WHEN " in
               let sql := WriteSQL ToSQL sql when in
               let sql := WriteString sql "THEN " in
               WriteSQL ToSQL sql then_) WhenParts (mkBuffer text args None)
  = mkBuffer
      (text ++ String.concat ""
                 (map (fun p => let 'WhenPart when then_ := p in
                                "WHEN " ++ case_piece when
                                ++ "THEN " ++ case_piece then_) WhenParts))
      (append args
         (flat_map nested_args
            (flat_map (fun p => let 'WhenPart when then_ := p in [when; then_])
                      WhenParts)))
      None.
Proof.
  induction WhenParts as [|[when then_] ps IH]; intros text args Hok.
  - cbn. now rewrite append_nil_r.
  - cbn [fold_left]. cbn [flat_map app] in Hok |- *.
    rewrite (WriteSQL_ok _ when) by (auto; apply Hok; now left).
    rewrite (WriteSQL_ok _ then_) by (auto; apply Hok; right; now left).
    unfold WriteString. cbn [Buffer buf_args buf_err].
    rewrite IH by (intros h Hh; apply Hok; right; now right).
    f_equal.
    + cbn [map]. rewrite !append_assoc. f_equal. f_equal.
      destruct ps; cbn [String.concat map];
        now rewrite ?append_nil_r, ?append_assoc.
    + now rewrite !append_append, <- ?app_assoc.
Qed.

(** X7: A case expression with a WHEN clause, all of whose pieces render: the
    keywords and the texts of the pieces in order, every piece followed by
    one blank, and the arguments of the pieces in that order. *)
Theorem caseData_rendered (What : option fragment)
    (WhenParts : list whenPart) (Else : option fragment) :
  WhenParts <> [] ->
  (forall h, In h (case_children What WhenParts Else) ->
             err_of (nestedToSQL ToSQL h) = None) ->
  ToSQL (CaseData What WhenParts Else)
  = ("CASE "
       ++ match What with Some w => case_piece w | None => "" end
       ++ String.concat ""
            (map (fun p => let 'WhenPart when then_ := p in
                           "WHEN " ++ case_piece when
                           ++ "THEN " ++ case_piece then_) WhenParts)
       ++ match Else with Some e => "ELSE " ++ case_piece e | None => "" end
       ++ "END",
     append None (flat_map nested_args (case_children What WhenParts Else)),
     None).
Proof.
  intros Hne Hok. cbn [ToSQL]. unfold caseData_ToSQL.
  destruct WhenParts as [|p ps]; [contradiction|]. cbn [length Nat.eqb].
  set (ws := p :: ps) in *. unfold case_children in Hok |- *.
  assert (Hwhat : forall w, What = Some w ->
                            err_of (nestedToSQL ToSQL w) = None).
  { intros w ->. apply Hok. now left. }
  assert (Hwhen : forall h,
             In h (flat_map (fun p => let 'WhenPart when then_ := p in
                                      [when; then_]) ws) ->
             err_of (nestedToSQL ToSQL h) = None).
  { intros h Hh. apply Hok. apply in_or_app. right.
    apply in_or_app. now left. }
  assert (Helse : forall e, Else = Some e ->
                            err_of (nestedToSQL ToSQL e) = None).
  { intros e ->. apply Hok. apply in_or_app. right.
    apply in_or_app. right. now left. }
  change (WriteString {| Buffer := ""; buf_args := None; buf_err := None |}
                      "CASE ")
    with (mkBuffer "CASE " None None).
  assert (Hfold : forall text args,
             fold_left (fun sql p =>
                          let 'WhenPart when then_ := p in
                          WriteSQL ToSQL
                            (WriteString
                               (WriteSQL ToSQL (WriteString sql "WHEN ") when)
                               "THEN ") then_) ws (mkBuffer text args None)
             = mkBuffer
                 (text ++ String.concat ""
                    (map (fun p => let 'WhenPart when then_ := p in
                                   "WHEN " ++ case_piece when
                                   ++ "THEN " ++ case_piece then_) ws))
                 (append args
                    (flat_map nested_args
                       (flat_map (fun p => let 'WhenPart when then_ := p in
                                           [when; then_]) ws)))
                 None).
  { intros text args. exact (WhenParts_ok ws text args Hwhen). }
  destruct What as [w|]; destruct Else as [e|];
    rewrite ?(WriteSQL_ok _ w) by (auto using eq_refl);
    cbn [Buffer buf_args buf_err]; rewrite Hfold;
    unfold WriteString; cbn [Buffer buf_args buf_err];
    rewrite ?(WriteSQL_ok _ e) by (auto using eq_refl);
    unfold sqlizerBuffer_ToSQL, WriteString; cbn [Buffer buf_args buf_err];
    rewrite ?flat_map_app, ?append_append, ?append_assoc, ?app_nil_r;
    repeat match goal with
           | |- context [flat_map nested_args [?x]] =>
               change (flat_map nested_args [x])
                 with (nested_args x ++ [])%list
           end;
    rewrite ?app_nil_r; reflexivity.
Qed.

Lemma caseData_rendered_witness :
  ToSQL (CaseData (Some (Part (VStr "status") None))
                  [WhenPart (Part (VStr "a = ?") (Some [VInt 1]))
                            (Part (VSql (Expr "?" (Some [VStr "foo"]))) None)]
                  None)
  = ("CASE status WHEN a = ? THEN ? END", Some [VInt 1; VStr "foo"], None).
Proof.
  apply (caseData_rendered (Some (Part (VStr "status") None))
           [WhenPart (Part (VStr "a = ?") (Some [VInt 1]))
                     (Part (VSql (Expr "?" (Some [VStr "foo"]))) None)]
           None).
  - discriminate.
  - intros h [<-|[<-|[<-|[]]]]; reflexivity.
Defined.

(** ** Predicate maps that render *)



Lemma In_getSortedKeys (m : gomap) (k : string) :
  In k (getSortedKeys m) <-> In k (map fst m).
Proof.
  unfold getSortedKeys. split; intros H.
  - exact (Permutation_in _
             (Permutation_sym (SortStrings.Permuted_sort (map fst m))) H).
  - exact (Permutation_in _ (SortStrings.Permuted_sort (map fst m)) H).
Qed.

Lemma Eq_loop_scalars (eq : gomap) equalOpr inOpr nullOpr inEmptyExpr :
  forall keys exprs args,
    (forall k, In k keys -> Eq_scalar (lookup eq k)) ->
    Eq_loop eq equalOpr inOpr nullOpr inEmptyExpr keys exprs args
    = (Join (exprs ++ map (fun k => k ++ " " ++ equalOpr ++ " ?") keys)
            " AND ",
       append args (map (fun k => Eq_unwrapped (lookup eq k)) keys), None).
Proof.
  induction keys as [|k keys IH]; intros exprs args Hs.
  - cbn. now rewrite app_nil_r.
  - cbn [Eq_loop map].
    destruct (Hs k (or_introl eq_refl)) as (Herr & Hnil & Hlist).
    unfold Eq_unwrapped in *.
    destruct (valuer_value (lookup eq k)) as [v err].
    cbn [fst snd] in *. subst err. unfold Eq_expr. rewrite Hnil, Hlist.
    rewrite IH by (intros k' Hk'; apply Hs; now right).
    now rewrite <- app_assoc, append_append.
Qed.

(** X9: An equality map all of whose values are scalars once unwrapped: one
    clause [key = ?] ([key <> ?] for [NotEq]) per key, in sorted key order,
    joined by [AND], binding the unwrapped values in that order. *)
Theorem Eq_scalars (m : gomap) (useNotOpr : bool) :
  m <> [] ->
  (forall k, In k (map fst m) -> Eq_scalar (lookup m k)) ->
  let equalOpr := if useNotOpr then "<>" else "=" in
  ToSQL (if useNotOpr then NotEq m else Eq m)
  = (Join (map (fun k => k ++ " " ++ equalOpr ++ " ?") (getSortedKeys m))
          " AND ",
     append None (map (fun k => Eq_unwrapped (lookup m k)) (getSortedKeys m)),
     None).
Proof.
  intros Hne Hs equalOpr.
  assert (Hkeys : forall k, In k (getSortedKeys m) -> Eq_scalar (lookup m k))
    by (intros k Hk; apply Hs; now apply In_getSortedKeys).
  destruct useNotOpr; cbn [ToSQL]; unfold Eq_toSQL;
    (destruct m as [|kv m']; [contradiction|]); cbn [length Nat.eqb];
    now rewrite Eq_loop_scalars.
Qed.

Lemma Eq_scalars_witness :
  ToSQL (Eq [("b", VPtr (Some (VStr "x"))); ("a", VInt 1)])
  = ("a = ? AND b = ?", Some [VInt 1; VStr "x"], None).
Proof.
  apply (Eq_scalars [("b", VPtr (Some (VStr "x"))); ("a", VInt 1)] false).
  - discriminate.
  - intros k [<-|[<-|[]]]; repeat split.
Defined.

Lemma Eq_loop_Valuer_error (eq : gomap) equalOpr inOpr nullOpr inEmptyExpr
    (key : string) (v : value) (e : error) :
  lookup eq key = VValuer v (Some e) ->
  forall sortedKeys exprs args,
    In key sortedKeys ->
    exists args' e',
      Eq_loop eq equalOpr inOpr nullOpr inEmptyExpr sortedKeys exprs args
      = ("", args', Some e')
      /\ exists k' v', In (k', VValuer v' (Some e')) eq.
Proof.
  intros Hk. induction sortedKeys as [|k ks IH]; intros exprs args Hin;
    [contradiction|].
  cbn [Eq_loop].
  destruct (valuer_value (lookup eq k)) as [u [e'|]] eqn:Hu.
  { exists args, e'. split; [reflexivity|].
    apply valuer_value_err in Hu. apply lookup_Valuer_In in Hu. eauto. }
  destruct Hin as [->|Hin].
  { rewrite Hk in Hu. discriminate Hu. }
  destruct (Eq_expr _ _ _ _ _ _ _). now apply IH.
Qed.

(** X10: An equality map with a [driver.Valuer] whose [Value] fails does not
    render: [ToSQL] returns the empty text and the error of a
    [driver.Valuer] of the map. *)
Theorem Eq_Valuer_error (m : gomap) (key : string) (v : value) (e : error)
    (useNotOpr : bool) :
  NoDup (map fst m) ->
  In (key, VValuer v (Some e)) m ->
  exists args e',
    ToSQL (if useNotOpr then NotEq m else Eq m) = ("", args, Some e')
    /\ exists k' v', In (k', VValuer v' (Some e')) m.
Proof.
  intros Hnd Hin.
  pose proof (lookup_In m key _ Hnd Hin) as Hk.
  assert (Hkey : In key (getSortedKeys m)).
  { apply In_getSortedKeys. apply in_map_iff. now exists (key, VValuer v (Some e)). }
  destruct useNotOpr; cbn [ToSQL]; unfold Eq_toSQL;
    (destruct m as [|kv m']; [contradiction|]); cbn [length Nat.eqb];
    now apply (Eq_loop_Valuer_error _ _ _ _ _ key v e).
Qed.

Lemma Eq_Valuer_error_witness :
  exists args e',
    ToSQL (Eq [("a", VInt 1); ("b", VValuer VNil (Some (ErrorsNew "bad")))])
    = ("", args, Some e')
    /\ exists k' v',
        In (k', VValuer v' (Some e'))
           [("a", VInt 1); ("b", VValuer VNil (Some (ErrorsNew "bad")))].
Proof.
  apply (Eq_Valuer_error
           [("a", VInt 1); ("b", VValuer VNil (Some (ErrorsNew "bad")))]
           "b" VNil (ErrorsNew "bad") false).
  - repeat constructor; simpl; intuition discriminate.
  - right. now left.
Defined.

Lemma Lt_loop_scalars (lt : gomap) (opr : string) :
  forall keys exprs args,
    (forall k, In k keys -> Lt_scalar (lookup lt k)) ->
    Lt_loop lt opr keys exprs args
    = (Join (exprs ++ map (fun k => k ++ " " ++ opr ++ " ?") keys) " AND ",
       append args (map (fun k => fst (valuer_value (lookup lt k))) keys),
       None).
Proof.
  induction keys as [|k keys IH]; intros exprs args Hs.
  - cbn. now rewrite app_nil_r.
  - cbn [Lt_loop map].
    destruct (Hs k (or_introl eq_refl)) as (Herr & Hbad).
    unfold null_or_list in Hbad. apply orb_false_iff in Hbad as [Hnil Hlist].
    destruct (valuer_value (lookup lt k)) as [v err].
    cbn [fst snd] in *. subst err. rewrite Hnil, Hlist.
    rewrite IH by (intros k' Hk'; apply Hs; now right).
    now rewrite <- app_assoc, append_append.
Qed.

(** X11: A comparison map none of whose values is null or a list: one clause
    [key < ?] (or [<=], [>], [>=] by variant) per key, in sorted key order,
    joined by [AND], binding the values in that order.  The empty map
    renders the empty text and the nil argument list. *)
Theorem Lt_scalars (m : gomap) :
  (forall k, In k (map fst m) -> Lt_scalar (lookup m k)) ->
  let clauses opr := map (fun k => k ++ " " ++ opr ++ " ?") (getSortedKeys m) in
  let args :=
    append None (map (fun k => fst (valuer_value (lookup m k)))
                     (getSortedKeys m)) in
  ToSQL (Lt m) = (Join (clauses "<") " AND ", args, None)
  /\ ToSQL (LtOrEq m) = (Join (clauses "<=") " AND ", args, None)
  /\ ToSQL (Gt m) = (Join (clauses ">") " AND ", args, None)
  /\ ToSQL (GtOrEq m) = (Join (clauses ">=") " AND ", args, None).
Proof.
  intros Hs clauses args.
  assert (Hkeys : forall k, In k (getSortedKeys m) -> Lt_scalar (lookup m k))
    by (intros k Hk; apply Hs; now apply In_getSortedKeys).
  repeat split; cbn [ToSQL]; unfold Lt_toSQL;
    now rewrite Lt_loop_scalars.
Qed.

Lemma Lt_scalars_witness :
  ToSQL (GtOrEq [("b", VValuer (VInt 2) None); ("a", VInt 1)])
  = ("a >= ? AND b >= ?", Some [VInt 1; VInt 2], None).
Proof.
  apply (Lt_scalars [("b", VValuer (VInt 2) None); ("a", VInt 1)]).
  intros k [<-|[<-|[]]]; split; reflexivity.
Defined.

Lemma Like_loop_scalars (opr : string) : forall lk exprs args,
  (forall kv, In kv lk -> Lt_scalar (snd kv)) ->
  Like_loop lk opr exprs args
  = (Join (exprs ++ map (fun kv => fst kv ++ " " ++ opr ++ " ?") lk) " AND ",
     append args (map (fun kv => fst (valuer_value (snd kv))) lk), None).
Proof.
  induction lk as [|[k v0] lk IH]; intros exprs args Hs.
  - cbn. now rewrite app_nil_r.
  - cbn [Like_loop map fst snd].
    destruct (Hs (k, v0) (or_introl eq_refl)) as (Herr & Hbad).
    unfold null_or_list in Hbad. apply orb_false_iff in Hbad as [Hnil Hlist].
    cbn [snd] in *.
    destruct (valuer_value v0) as [v err].
    cbn [fst snd] in *. subst err. rewrite Hnil, Hlist.
    rewrite IH by (intros kv Hkv; apply Hs; now right).
    now rewrite <- app_assoc, append_append.
Qed.

(** X12: A pattern-match map none of whose values is null or a list: one clause
    [key LIKE ?] (or [NOT LIKE], [ILIKE], [NOT ILIKE] by variant) per entry,
    joined by [AND], binding the values; clauses and values follow the order
    in which [range] yields the entries. *)
Theorem Like_scalars (m : gomap) :
  (forall kv, In kv m -> Lt_scalar (snd kv)) ->
  let clauses opr := map (fun kv => fst kv ++ " " ++ opr ++ " ?") m in
  let args := append None (map (fun kv => fst (valuer_value (snd kv))) m) in
  ToSQL (Like m) = (Join (clauses "LIKE") " AND ", args, None)
  /\ ToSQL (NotLike m) = (Join (clauses "NOT LIKE") " AND ", args, None)
  /\ ToSQL (ILike m) = (Join (clauses "ILIKE") " AND ", args, None)
  /\ ToSQL (NotILike m) = (Join (clauses "NOT ILIKE") " AND ", args, None).
Proof.
  intros Hs clauses args.
  repeat split; cbn [ToSQL]; unfold Like_toSQL;
    now rewrite Like_loop_scalars.
Qed.

Lemma Like_scalars_witness :
  ToSQL (NotILike [("name", VStr "sq%"); ("city", VStr "%on")])
  = ("name NOT ILIKE ? AND city NOT ILIKE ?",
     Some [VStr "sq%"; VStr "%on"], None).
Proof.
  apply (Like_scalars [("name", VStr "sq%"); ("city", VStr "%on")]).
  intros kv [<-|[<-|[]]]; split; reflexivity.
Defined.

(** X13: The equality and comparison fragments over one map render the same
    text and the same arguments whatever the order in which [range] yields
    the entries of the map. *)
Theorem sorted_maps_render_alike (m m' : gomap) :
  NoDup (map fst m) ->
  Permutation m m' ->
  ToSQL (Eq m) = ToSQL (Eq m') /\ ToSQL (NotEq m) = ToSQL (NotEq m')
  /\ ToSQL (Lt m) = ToSQL (Lt m') /\ ToSQL (LtOrEq m) = ToSQL (LtOrEq m')
  /\ ToSQL (Gt m) = ToSQL (Gt m') /\ ToSQL (GtOrEq m) = ToSQL (GtOrEq m').
Proof.
  intros Hnd Hp.
  destruct (sorted_maps_order_independent m m' Hnd Hp) as [HEq HLt].
  cbn [ToSQL]. now rewrite !HEq, !HLt.
Qed.

Lemma sorted_maps_render_alike_witness :
  ToSQL (Eq [("a", VInt 1); ("b", VList [])])
  = ToSQL (Eq [("b", VList []); ("a", VInt 1)]).
Proof.
  apply (sorted_maps_render_alike
           [("a", VInt 1); ("b", VList [])] [("b", VList []); ("a", VInt 1)]).
  - repeat constructor; simpl; intuition discriminate.
  - apply perm_swap.
Defined.

(** ** The debug renderer on aligned statements *)

Lemma interpolate_no_marker (fmt_v : value -> string) (pre s : string)
    (args : list value) :
  no_marker pre = true ->
  interpolate fmt_v (pre ++ s) args = pre ++ interpolate fmt_v s args.
Proof.
  induction pre as [|c pre IH]; intros H; [reflexivity|].
  simpl in H. apply andb_prop in H as [Hc Hs]. apply negb_true_iff in Hc.
  cbn [String.append interpolate]. rewrite Hc. now rewrite IH.
Qed.

Lemma interpolate_marker (fmt_v : value -> string) (post : string)
    (args : list value) :
  starts_with_marker post = false ->
  interpolate fmt_v (String "?" post) args
  = "'" ++ fmt_v (hd VNil args) ++ "'" ++ interpolate fmt_v post (tl args).
Proof.
  destruct post as [|c post]; cbn [starts_with_marker]; intros H.
  - cbn [interpolate Ascii.eqb Bool.eqb]. reflexivity.
  - cbn [interpolate Ascii.eqb Bool.eqb]. fold (Ascii.eqb c "?").
    rewrite H at 1. reflexivity.
Qed.

Lemma nth_hd_skipn {A} (d : A) (l : list A) : forall i,
  nth i l d = hd d (skipn i l).
Proof.
  induction l as [|x l IH]; intros [|i]; cbn; auto.
Qed.

Lemma tl_skipn {A} (l : list A) : forall i,
  tl (skipn i l) = skipn (i + 1) l.
Proof.
  induction l as [|x l IH]; intros [|i]; cbn; auto.
Qed.

Lemma debug_loop_interpolates (fmt_v : value -> string)
    (fmt_sharp_v : string -> string) (args : args_t) :
  forall fuel sql buf i,
    String.length sql < fuel ->
    i + count_markers sql <= length (elems args) ->
    exists buf' rest,
      debug_loop fmt_v fmt_sharp_v fuel "?" args buf sql i
      = inr (buf', rest, i + count_markers sql)
      /\ buf' ++ rest
         = buf ++ interpolate fmt_v sql (skipn i (elems args)).
Proof.
  induction fuel as [|fuel IH]; intros sql buf i Hf Hm; [lia|].
  destruct (text_cases sql)
    as [H|[(pre & post & -> & H)|(pre & post & -> & H & Hpost)]].
  - rewrite debug_loop_no_marker, count_markers_none, Nat.add_0_r
      by assumption.
    exists buf, sql. split; [reflexivity|].
    rewrite <- (append_nil_r sql) at 2.
    rewrite interpolate_no_marker by assumption. cbn [interpolate].
    now rewrite append_nil_r.
  - rewrite count_markers_no_marker in Hm |- * by assumption.
    cbn [count_markers Ascii.eqb Bool.eqb] in Hm |- *.
    rewrite length_append in Hf. simpl in Hf.
    rewrite debug_loop_escape by assumption.
    destruct (IH post ((buf ++ pre) ++ "?") i) as (buf' & rest & -> & E);
      [lia|lia|].
    exists buf', rest. split; [reflexivity|]. rewrite E.
    rewrite interpolate_no_marker by assumption.
    cbn [interpolate Ascii.eqb Bool.eqb].
    now rewrite !append_assoc.
  - rewrite count_markers_no_marker, count_markers_single in Hm |- *
      by assumption.
    rewrite length_append in Hf. simpl in Hf.
    rewrite debug_loop_marker by assumption.
    destruct (Nat.ltb_spec (length (elems args)) (i + 1)); [lia|].
    destruct (IH post
                ((buf ++ pre)
                   ++ "'" ++ fmt_v (nth i (elems args) VNil) ++ "'")
                (i + 1)) as (buf' & rest & E1 & E); [lia|lia|].
    exists buf', rest. split.
    + rewrite E1. f_equal. f_equal. lia.
    + rewrite E, interpolate_no_marker, interpolate_marker by assumption.
      rewrite nth_hd_skipn, tl_skipn. now rewrite !append_assoc.
Qed.

(** X14: On a statement that renders without error into a text with as many
    markers as arguments, the debug renderer returns that text with every
    marker replaced by the next argument between quotes and every escaped
    pair by one marker character. *)
Theorem debug_interpolates (fmt_v : value -> string)
    (fmt_sharp_v : string -> string) (Error : error -> string)
    (s : fragment) (sql : string) (args : args_t) :
  ToSQL s = (sql, args, None) ->
  count_markers sql = length (elems args) ->
  DebugSQLizer fmt_v fmt_sharp_v Error s
  = interpolate fmt_v sql (elems args).
Proof.
  intros Hs Hm. unfold DebugSQLizer. rewrite Hs.
  destruct (debug_loop_interpolates fmt_v fmt_sharp_v args
              (S (String.length sql)) sql "" 0) as (buf & rest & -> & E);
    [lia|lia|].
  cbn [Nat.add]. rewrite Hm, Nat.ltb_irrefl. exact E.
Qed.

Lemma debug_interpolates_witness :
  DebugSQLizer (fun v => match v with VStr t => t | _ => "1" end)
               (fun t => t) (fun _ => "e")
               (Expr "x = ? AND y = ? AND z = '??'"
                     (Some [VInt 1; VStr "text"]))
  = "x = '1' AND y = 'text' AND z = '?'".
Proof.
  exact (debug_interpolates
           (fun v => match v with VStr t => t | _ => "1" end)
           (fun t => t) (fun _ => "e")
           (Expr "x = ? AND y = ? AND z = '??'" (Some [VInt 1; VStr "text"]))
           "x = ? AND y = ? AND z = '??'" (Some [VInt 1; VStr "text"])
           eq_refl eq_refl).
Defined.

(** ** appendToSQL *)

Lemma concat_cons (x : string) (xs : list string) :
  String.concat "" (x :: xs) = x ++ String.concat "" xs.
Proof. destruct xs; cbn; [now rewrite append_nil_r | reflexivity]. Qed.

Lemma Join_cons (t : string) (ts : list string) (sep : string) :
  Join (t :: ts) sep = t ++ String.concat "" (map (fun x => sep ++ x) ts).
Proof.
  unfold Join. revert t. induction ts as [|u ts IH]; intros t.
  - cbn. now rewrite append_nil_r.
  - change (String.concat sep (t :: u :: ts))
      with (t ++ sep ++ String.concat sep (u :: ts)).
    rewrite IH. cbn [map]. now rewrite concat_cons, append_assoc.
Qed.

Lemma appendToSQL_from_texts (sep : string) : forall parts i w args,
  (forall h, In h parts ->
             err_of (nestedToSQL ToSQL h) = None
             /\ sql_of (nestedToSQL ToSQL h) <> "") ->
  appendToSQL_from (S i) parts w sep args
  = (w ++ String.concat ""
            (map (fun h => sep ++ sql_of (nestedToSQL ToSQL h)) parts),
     append args (flat_map nested_args parts), None).
Proof.
  induction parts as [|p parts IH]; intros i w args Hok.
  - cbn. now rewrite append_nil_r.
  - cbn [appendToSQL_from map flat_map]. unfold nested_args at 1.
    destruct (Hok p (or_introl eq_refl)) as [Herr Htext].
    destruct (nestedToSQL ToSQL p) as [[partSQL partArgs] err].
    cbn in Herr, Htext |- *. subst err.
    destruct partSQL as [|c partSQL]; [congruence|].
    cbn [String.length Nat.eqb].
    rewrite IH by (intros h Hh; apply Hok; now right).
    rewrite append_append. f_equal. f_equal.
    destruct parts; cbn [map String.concat];
      now rewrite ?append_nil_r, ?append_assoc.
Qed.

(** X15: [appendToSQL] on parts that all render a text: the texts joined by the
    separator go to the buffer and the arguments follow the ones given.  A
    first part that renders the empty text is skipped with its arguments,
    and the separator still goes in front of the part after it. *)
Theorem appendToSQL_rendered (parts : list fragment) (w sep : string)
    (args : args_t) :
  (forall h, In h parts ->
             err_of (nestedToSQL ToSQL h) = None
             /\ sql_of (nestedToSQL ToSQL h) <> "") ->
  appendToSQL parts w sep args
  = (w ++ Join (map (fun h => sql_of (nestedToSQL ToSQL h)) parts) sep,
     append args (flat_map nested_args parts), None)
  /\ forall p0,
      nestedToSQL ToSQL p0 = ("", args_of (nestedToSQL ToSQL p0), None) ->
      parts <> [] ->
      appendToSQL (p0 :: parts) w sep args
      = (w ++ sep
           ++ Join (map (fun h => sql_of (nestedToSQL ToSQL h)) parts) sep,
         append args (flat_map nested_args parts), None).
Proof.
  intros Hok. split.
  - destruct parts as [|p parts]; [cbn; now rewrite append_nil_r|].
    unfold appendToSQL. cbn [appendToSQL_from map flat_map].
    unfold nested_args at 1.
    destruct (Hok p (or_introl eq_refl)) as [Herr Htext].
    destruct (nestedToSQL ToSQL p) as [[partSQL partArgs] err].
    cbn in Herr, Htext. cbn [sql_of args_of fst snd]. subst err.
    destruct partSQL as [|c partSQL]; [congruence|].
    cbn [String.length Nat.eqb Nat.ltb Nat.leb].
    rewrite appendToSQL_from_texts by (intros h Hh; apply Hok; now right).
    rewrite Join_cons, map_map, append_append, !append_assoc. reflexivity.
  - intros p0 Hp0 Hne. unfold appendToSQL. cbn [appendToSQL_from].
    rewrite Hp0. cbn [String.length Nat.eqb].
    rewrite appendToSQL_from_texts by assumption.
    destruct parts as [|p parts]; [contradiction|].
    cbn [map]. rewrite Join_cons, concat_cons, map_map, !append_assoc.
    reflexivity.
Qed.

Lemma appendToSQL_rendered_witness :
  appendToSQL [Expr "" (Some [VInt 0]); Expr "a = ?" (Some [VInt 1]);
               Expr "b" None] "WHERE " " AND " None
  = ("WHERE  AND a = ? AND b", Some [VInt 1], None).
Proof.
  apply (proj2 (appendToSQL_rendered
                  [Expr "a = ?" (Some [VInt 1]); Expr "b" None]
                  "WHERE " " AND " None
                  ltac:(intros h [<-|[<-|[]]]; split;
                        [reflexivity|discriminate
                        |reflexivity|discriminate]))
           (Expr "" (Some [VInt 0])) eq_refl ltac:(discriminate)).
Defined.

Lemma appendToSQL_from_first_error (sep : string) (g : fragment) (e : error)
    (c2 : list fragment) :
  err_of (nestedToSQL ToSQL g) = Some e ->
  forall c1 i w args,
    (forall h, In h c1 -> err_of (nestedToSQL ToSQL h) = None) ->
    exists w',
      appendToSQL_from i (c1 ++ g :: c2) w sep args = (w', None, Some e).
Proof.
  intros Hg. induction c1 as [|h c1 IH]; intros i w args Hok.
  - cbn [app appendToSQL_from].
    destruct (nestedToSQL ToSQL g) as [[partSQL partArgs] err].
    cbn in Hg. subst err. now eexists.
  - cbn [app appendToSQL_from].
    pose proof (Hok h (or_introl eq_refl)) as Hh.
    destruct (nestedToSQL ToSQL h) as [[partSQL partArgs] err].
    cbn in Hh. subst err.
    destruct (String.length partSQL =? 0)%nat;
      apply IH; intros x Hx; apply Hok; now right.
Qed.

(** X16: [appendToSQL] gives up at the first part that fails: it returns that
    error and no argument list, not even the arguments it was given. *)
Theorem appendToSQL_first_error (c1 c2 : list fragment) (g : fragment)
    (e : error) (w sep : string) (args : args_t) :
  err_of (nestedToSQL ToSQL g) = Some e ->
  (forall h, In h c1 -> err_of (nestedToSQL ToSQL h) = None) ->
  exists w', appendToSQL (c1 ++ g :: c2) w sep args = (w', None, Some e).
Proof.
  intros Hg Hok. now apply appendToSQL_from_first_error.
Qed.

Lemma appendToSQL_first_error_witness :
  exists w',
    appendToSQL ([Expr "a" None] ++ Lt [("x", VNil)] :: [Expr "b" None])
                "" ", " (Some [VInt 7])
    = (w', None, Some errLtNull).
Proof.
  apply (appendToSQL_first_error [Expr "a" None] [Expr "b" None]
           (Lt [("x", VNil)]) errLtNull).
  - reflexivity.
  - intros h [<-|[]]. reflexivity.
Defined.

(** ** UPDATE statements *)

Section UpdateProperties.

Variable isSelectBuilder : fragment -> bool.

Lemma setSQLs_loop_rendered : forall clauses setSQLs args,
  (forall c vs, In c clauses -> value_ c = VSql vs ->
                err_of (ToSQL vs) = None) ->
  setSQLs_loop isSelectBuilder clauses setSQLs args
  = inl ((setSQLs ++ map (setSQL_of isSelectBuilder) clauses)%list,
         append args (flat_map (fun c => emitted (value_ c)) clauses)).
Proof.
  induction clauses as [|c clauses IH]; intros setSQLs args Hok.
  - cbn. now rewrite app_nil_r.
  - cbn [setSQLs_loop map flat_map].
    assert (Hrest : forall c' vs, In c' clauses -> value_ c' = VSql vs ->
                                  err_of (ToSQL vs) = None)
      by (intros c' vs Hc'; apply Hok; now right).
    change (setSQL_of isSelectBuilder c)
      with (column c ++ " = " ++ valSQL_of isSelectBuilder (value_ c)).
    destruct (value_ c) eqn:Hv;
      try (rewrite IH by assumption; cbn [valSQL_of emitted];
           now rewrite <- app_assoc, append_append).
    pose proof (Hok c f (or_introl eq_refl) Hv) as Hf.
    cbn [valSQL_of emitted]. unfold sql_of, args_of.
    destruct (ToSQL f) as [[vsql vargs] err]. cbn in Hf. subst err.
    cbn [fst snd]. rewrite IH by assumption.
    now rewrite <- app_assoc, append_append.
Qed.

(** X17: An UPDATE of a table with SET clauses only, whose fragment values
    render: the text handed to the placeholder pass is [UPDATE table SET]
    and the clauses [column = value] separated by commas, a marker standing
    for a plain value and its own text for a fragment; the arguments are
    those of the values in the order of the clauses; the text and the error
    returned are those of the placeholder pass. *)
Theorem update_set_rendered
    (ReplacePlaceholders : string -> string * option error)
    (table : string) (clauses : list setClause) :
  table <> "" ->
  clauses <> [] ->
  (forall c vs, In c clauses -> value_ c = VSql vs ->
                err_of (ToSQL vs) = None) ->
  updateData_ToSQL isSelectBuilder
    (mkUpdateData ReplacePlaceholders [] table clauses [] [] "" "" [])
  = (let '(sqlStr, err) :=
       ReplacePlaceholders
         ("UPDATE " ++ table ++ " SET "
            ++ Join (map (setSQL_of isSelectBuilder) clauses) ", ") in
     (sqlStr, append None (flat_map (fun c => emitted (value_ c)) clauses),
      err)).
Proof.
  intros Ht Hc Hok. unfold updateData_ToSQL.
  cbn [Table SetClauses Prefixes WhereParts OrderBys Limit Offset Suffixes
       PlaceholderFormat].
  destruct table as [|ch table]; [congruence|].
  destruct clauses as [|c clauses]; [congruence|].
  cbn [String.length length Nat.eqb Nat.ltb Nat.leb].
  rewrite setSQLs_loop_rendered by assumption.
  cbn [app String.append]. rewrite !append_assoc. reflexivity.
Qed.

Lemma setSQLs_loop_first_error (col : string) (g : fragment) (e : error)
    (c2 : list setClause) :
  err_of (ToSQL g) = Some e ->
  forall c1 setSQLs args,
    (forall c vs, In c c1 -> value_ c = VSql vs ->
                  err_of (ToSQL vs) = None) ->
    setSQLs_loop isSelectBuilder (c1 ++ mkSetClause col (VSql g) :: c2)
                 setSQLs args
    = inr e.
Proof.
  intros Hg. induction c1 as [|c c1 IH]; intros setSQLs args Hok.
  - cbn [app setSQLs_loop value_].
    destruct (ToSQL g) as [[vsql vargs] err]. cbn in Hg. now subst err.
  - cbn [app setSQLs_loop].
    assert (Hrest : forall c' vs, In c' c1 -> value_ c' = VSql vs ->
                                  err_of (ToSQL vs) = None)
      by (intros c' vs Hc'; apply Hok; now right).
    destruct (value_ c) eqn:Hv; try now apply IH.
    pose proof (Hok c f (or_introl eq_refl) Hv) as Hf.
    destruct (ToSQL f) as [[vsql vargs] err]. cbn in Hf. subst err.
    now apply IH.
Qed.

(** X18: An UPDATE without prefixes whose SET clauses hold a fragment that
    fails, the first to fail: [ToSQL] returns that error with the empty
    text and no argument list, whatever else the statement holds. *)
Theorem update_set_error
    (ReplacePlaceholders : string -> string * option error)
    (table col : string) (c1 c2 : list setClause) (g : fragment) (e : error)
    (wheres suffixes : list fragment) (orderBys : list string)
    (limit offset : string) :
  table <> "" ->
  err_of (ToSQL g) = Some e ->
  (forall c vs, In c c1 -> value_ c = VSql vs -> err_of (ToSQL vs) = None) ->
  updateData_ToSQL isSelectBuilder
    (mkUpdateData ReplacePlaceholders [] table
                  (c1 ++ mkSetClause col (VSql g) :: c2)
                  wheres orderBys limit offset suffixes)
  = ("", None, Some e).
Proof.
  intros Ht Hg Hok. unfold updateData_ToSQL.
  cbn [Table SetClauses Prefixes WhereParts OrderBys Limit Offset Suffixes
       PlaceholderFormat].
  destruct table as [|ch table]; [congruence|].
  replace (length (c1 ++ mkSetClause col (VSql g) :: c2) =? 0)%nat
    with false by (destruct c1; reflexivity).
  cbn [String.length length Nat.eqb Nat.ltb Nat.leb].
  now rewrite (setSQLs_loop_first_error col g e c2 Hg c1).
Qed.

(** X19: Whenever [updateData.ToSQL] returns an error, the text it returns is
    empty, unless text and error are what the placeholder pass returned. *)
Theorem update_error_no_text (d : updateData) :
  err_of (updateData_ToSQL isSelectBuilder d) <> None ->
  sql_of (updateData_ToSQL isSelectBuilder d) = ""
  \/ exists sql,
      PlaceholderFormat d sql
      = (sql_of (updateData_ToSQL isSelectBuilder d),
         err_of (updateData_ToSQL isSelectBuilder d)).
Proof.
  unfold updateData_ToSQL.
  destruct (String.length (Table d) =? 0)%nat; [now left|].
  destruct (length (SetClauses d) =? 0)%nat; [now left|].
  destruct (0 <? length (Prefixes d))%nat;
    [destruct (appendToSQL (Prefixes d) "" " " None) as [[s0 a0] [e0|]];
     cbn [or_return]; [now left|]|];
    (destruct (setSQLs_loop _ _ _ _) as [[setSQLs a1]|e1]; [|now left]);
    (destruct (0 <? length (WhereParts d))%nat;
     [destruct (appendToSQL (WhereParts d) _ _ _) as [[s2 a2] [e2|]];
      cbn [or_return]; [now left|]|]);
    (destruct (0 <? length (Suffixes d))%nat;
     [destruct (appendToSQL (Suffixes d) _ _ _) as [[s3 a3] [e3|]];
      cbn [or_return]; [now left|]|]);
    intros _; right;
    match goal with
    | |- context [PlaceholderFormat d ?s] =>
        exists s; destruct (PlaceholderFormat d s) as [sqlStr err];
        reflexivity
    end.
Qed.

End UpdateProperties.

Lemma update_set_rendered_witness :
  updateData_ToSQL (fun _ => false)
    (mkUpdateData (fun s => (s, None)) [] "a"
       [mkSetClause "b" (VSql (Expr "? + 1" (Some [VInt 1])));
        mkSetClause "c" (VInt 2)] [] [] "" "" [])
  = ("UPDATE a SET b = ? + 1, c = ?", Some [VInt 1; VInt 2], None).
Proof.
  apply (update_set_rendered (fun _ => false) (fun s => (s, None)) "a"
           [mkSetClause "b" (VSql (Expr "? + 1" (Some [VInt 1])));
            mkSetClause "c" (VInt 2)]).
  - discriminate.
  - discriminate.
  - intros c vs [<-|[<-|[]]] H; [injection H as <-; reflexivity|discriminate H].
Defined.

Lemma update_set_error_witness :
  updateData_ToSQL (fun _ => false)
    (mkUpdateData (fun s => (s, None)) [] "a"
       ([mkSetClause "b" (VInt 1)]
          ++ mkSetClause "c" (VSql (Lt [("x", VNil)])) :: [])
       [Expr "d = ?" (Some [VInt 3])] ["e"] "4" "5" [])
  = ("", None, Some errLtNull).
Proof.
  apply (update_set_error (fun _ => false) (fun s => (s, None)) "a" "c"
           [mkSetClause "b" (VInt 1)] [] (Lt [("x", VNil)]) errLtNull).
  - discriminate.
  - reflexivity.
  - intros c vs [<-|[]] H. discriminate H.
Defined.

Lemma update_error_no_text_witness :
  sql_of (updateData_ToSQL (fun _ => false)
            (mkUpdateData (fun s => (s, None)) [] "" [] [] [] "" "" [])) = ""
  \/ exists sql,
      (fun s : string => (s, @None error)) sql
      = (sql_of (updateData_ToSQL (fun _ => false)
                   (mkUpdateData (fun s => (s, None)) [] "" [] [] [] "" "" [])),
         err_of (updateData_ToSQL (fun _ => false)
                   (mkUpdateData (fun s => (s, None)) [] "" [] [] [] "" "" []))).
Proof.
  apply (update_error_no_text (fun _ => false)
           (mkUpdateData (fun s => (s, None)) [] "" [] [] [] "" "" [])).
  discriminate.
Defined.

Lemma fold_Set (clauses : gomap) : forall keys b,
  fold_left (fun b key => let val := lookup clauses key in Set_ b key val)
            keys b
  = mkUpdateData (PlaceholderFormat b) (Prefixes b) (Table b)
      (SetClauses b ++ map (fun k => mkSetClause k (lookup clauses k)) keys)
      (WhereParts b) (OrderBys b) (Limit b) (Offset b) (Suffixes b).
Proof.
  induction keys as [|k keys IH]; intros b.
  - destruct b. cbn. now rewrite app_nil_r.
  - cbn [fold_left]. rewrite IH. unfold Set_.
    cbn [PlaceholderFormat Prefixes Table SetClauses WhereParts OrderBys
         Limit Offset Suffixes map].
    now rewrite <- app_assoc.
Qed.

(** X20: [SetMap] adds one SET clause per key of the map after the clauses the
    builder holds, in sorted key order, and leaves the rest of the builder
    as it is; so the builder it returns does not depend on the order in
    which [range] yields the entries of the map. *)
Theorem SetMap_sorted (b : updateData) (clauses : gomap) :
  SetMap b clauses
  = mkUpdateData (PlaceholderFormat b) (Prefixes b) (Table b)
      (SetClauses b
         ++ map (fun k => mkSetClause k (lookup clauses k))
                (getSortedKeys clauses))
      (WhereParts b) (OrderBys b) (Limit b) (Offset b) (Suffixes b)
  /\ forall clauses',
      NoDup (map fst clauses) -> Permutation clauses clauses' ->
      SetMap b clauses = SetMap b clauses'.
Proof.
  unfold SetMap. split; [apply fold_Set|].
  intros clauses' Hnd Hp. rewrite !fold_Set.
  fold (getSortedKeys clauses) (getSortedKeys clauses').
  rewrite (getSortedKeys_Permutation _ _ Hp). do 2 f_equal.
  apply map_ext. intros k. f_equal. now apply lookup_Permutation.
Qed.

Lemma SetMap_sorted_witness :
  SetMap (mkUpdateData (fun s => (s, None)) [] "test" [] [] [] "" "" [])
         [("x", VInt 1); ("y", VInt 2)]
  = SetMap (mkUpdateData (fun s => (s, None)) [] "test" [] [] [] "" "" [])
           [("y", VInt 2); ("x", VInt 1)].
Proof.
  apply (proj2 (SetMap_sorted
                  (mkUpdateData (fun s => (s, None)) [] "test" [] [] [] "" "" [])
                  [("x", VInt 1); ("y", VInt 2)])).
  - repeat constructor; simpl; intuition discriminate.
  - apply perm_swap.
Defined.
